(** * Open3D core/linalg/LU.cpp: pivoted LU factorisation, from the compact
      LAPACK form (combined L\U buffer and pivot array) to explicit P, L, U.

    The development follows the source file:
    - [GetColPermutation]  the replay of the pivot array (swap log);
    - [OutputToPLU]        the reconstruction of P, L and U;
    - [LU_with_ipiv]       validation, layout conversion and backend dispatch;
    - [LU]                 the two in sequence.

    Tensors handled by [LU_with_ipiv] live in a store of blobs, so that views
    ([T]) and copies ([Clone], [Contiguous]) are told apart.  The element
    types Float32 and Float64 are modelled by exact rationals ([Qc]):
    rounding is not modelled. *)

From Stdlib Require Import ZArith QArith Qcanon Lia.
From stdpp Require Import base option list numbers strings gmap.

Open Scope Z_scope.

(** ** Scalars *)

Definition Qz (z : Z) : Qc := Q2Qc (inject_Z z).

(** Closed equalities on rationals, matrices and results are decided by
    evaluation. *)
Ltac by_evaluation := apply (bool_decide_unpack _); vm_compute; exact I.

(** ** C arrays

    A C array is a list; an access outside of it is undefined behaviour,
    which the model reports as [None].  Indices are C [int]s. *)

Definition c_read {A} (a : list A) (z : Z) : option A :=
  if decide (0 ≤ z) then a !! Z.to_nat z else None.

Definition c_write {A} (a : list A) (z : Z) (v : A) : option (list A) :=
  if decide (0 ≤ z < Z.of_nat (length a)) then Some (<[Z.to_nat z := v]> a)
  else None.

(** ** GetColPermutation (LU.cpp, lines 142-159) *)

(** [Tensor::Arange(0, stop, 1, Int32)]. *)
Definition Arange (stop : nat) : list Z := Z.of_nat <$> seq 0 stop.

(** One iteration of the loop body, at index [i]:
<<
    int temp = full_ipiv_ptr[i];
    full_ipiv_ptr[i] = full_ipiv_ptr[ipiv_ptr[i] - 1];
    full_ipiv_ptr[ipiv_ptr[i] - 1] = temp;
>> *)
Definition swap_iteration (ipiv_ptr : list Z)
    (state : option (list Z)) (i : nat) : option (list Z) :=
  full_ipiv_ptr ← state;
  temp ← c_read full_ipiv_ptr (Z.of_nat i);
  p ← c_read ipiv_ptr (Z.of_nat i);
  x ← c_read full_ipiv_ptr (p - 1);
  full_ipiv_ptr ← c_write full_ipiv_ptr (Z.of_nat i) x;
  p' ← c_read ipiv_ptr (Z.of_nat i);
  c_write full_ipiv_ptr (p' - 1) temp.

(** [number_of_indices] is received and not used by the source.  The two
    [To] conversions (to host Int32 and back to Int64) keep the values: the
    entries of a pivot array for [number_of_rows] rows, a C [int], fit in 32
    bits. *)
Definition GetColPermutation (ipiv : list Z)
    (number_of_indices number_of_rows : nat) : option (list Z) :=
  foldl (swap_iteration ipiv) (Some (Arange number_of_rows))
        (seq 0 number_of_rows).

(** ** The decoder as the specification words it

    "initialize a sequence full[i] = i for i in 0..n-1.  For i from 0 to n-1
    in increasing order, swap full[i] and full[pivotArray[i] - 1]." *)

Definition swap_entries {A} (d : A) (full : list A) (a b : nat) : list A :=
  (λ k, if decide (k = a) then nth b full d
        else if decide (k = b) then nth a full d
        else nth k full d) <$> seq 0 (length full).

Fixpoint replay_from {A} (d : A) (i : nat) (pivots : list Z) (full : list A)
    : list A :=
  match pivots with
  | [] => full
  | p :: rest =>
      replay_from d (S i) rest (swap_entries d full i (Z.to_nat (p - 1)))
  end.

Definition decode_spec (pivotArray : list Z) (n : nat) : list Z :=
  replay_from 0 0%nat pivotArray (Z.of_nat <$> seq 0 n).

(** The reading the specification warns against: every pivot entry taken on
    its own as the image of its index. *)
Definition independent_lookup (pivotArray : list Z) : list Z :=
  (λ p, p - 1) <$> pivotArray.

(** A pivot array is valid for [n] rows when it has [n] entries, all in
    [1..n]. *)
Definition valid_pivots (n : nat) (ipiv : list Z) : Prop :=
  length ipiv = n ∧ Forall (λ p, 1 ≤ p ≤ Z.of_nat n) ipiv.

(** ** Matrices: the values of 2-D float tensors

    A matrix is the list of its rows.  The tensor operations used by the
    source file ([Eye], [IndexGet], [Matmul], [Inverse], the triangular
    split) belong to the tensor library, whose code is not part of this
    file: they are modelled on values. *)

Definition Matrix := list (list Qc).

Definition entry (M : Matrix) (i j : nat) : Qc := nth j (nth i M []) 0%Qc.

Definition tabulate (r c : nat) (f : nat → nat → Qc) : Matrix :=
  (λ i, f i <$> seq 0 c) <$> seq 0 r.

Definition ncols (M : Matrix) : nat := length (hd [] M).

Definition shaped (r c : nat) (M : Matrix) : Prop :=
  length M = r ∧ Forall (λ row, length row = c) M.

Definition sum_upto (m : nat) (f : nat → Qc) : Qc :=
  foldr (λ k acc, (f k + acc)%Qc) 0%Qc (seq 0 m).

Definition transpose (M : Matrix) : Matrix :=
  tabulate (ncols M) (length M) (λ i j, entry M j i).

(** Modelled from the spec: [Tensor::Eye], "the n×n identity matrix". *)
Definition Eye (n : nat) : Matrix :=
  tabulate n n (λ i j, if decide (i = j) then 1%Qc else 0%Qc).

(** Modelled from the spec: [Tensor::IndexGet] with one index tensor,
    "gathering rows ... using fullPermutation as indices".  An index
    outside of the rows gives no result. *)
Definition IndexGet (M : Matrix) (indices : list Z) : option Matrix :=
  mapM (c_read M) indices.

(** Modelled from the spec: [Tensor::Matmul], "matrix product". *)
Definition Matmul (M N : Matrix) : Matrix :=
  tabulate (length M) (ncols N)
    (λ i j, sum_upto (length N) (λ k, (entry M i k * entry N k j)%Qc)).

(** Modelled from the spec: the triangular split of the combined buffer,
    "upper triangular including diagonal → U; strict lower triangular with
    implicit unit diagonal → L".  The result is the pair (upper, lower). *)
Definition upper_part (M : Matrix) : Matrix :=
  tabulate (length M) (ncols M)
    (λ i j, if decide (i ≤ j)%nat then entry M i j else 0%Qc).

Definition unit_lower_part (M : Matrix) : Matrix :=
  tabulate (length M) (ncols M)
    (λ i j, if decide (j < i)%nat then entry M i j
            else if decide (i = j) then 1%Qc else 0%Qc).

Definition Thiul (M : Matrix) : Matrix * Matrix :=
  (upper_part M, unit_lower_part M).

(** ** OutputToPLU (LU.cpp, lines 121-140) *)

Section Reconstructor.

(** Modelled from the spec: [Tensor::Inverse], "a general matrix inverse",
    of the tensor library; it is a parameter, with no result where the
    library raises (a singular matrix).  Its contract is [Inverse_contract]
    below. *)
Variable Inverse : Matrix → option Matrix.

(** The three output references [permutation], [lower], [upper] are
    returned as a triple.  [Contiguous] keeps the values.  There is no
    result when the decoder reads outside an array or a tensor operation
    fails. *)
Definition OutputToPLU (output : Matrix) (ipiv : list Z) (permute_l : bool)
    : option (Matrix * Matrix * Matrix) :=
  let n := length output in
  let '(upper, lower) := Thiul output in
  colPermutation ← GetColPermutation ipiv (length ipiv) n;
  permutation ← IndexGet (Eye n) colPermutation;
  permutation ← Inverse permutation;
  let lower := if permute_l then Matmul permutation lower else lower in
  Some (permutation, lower, upper).

End Reconstructor.

(** ** Contracts of the collaborators *)

(** Modelled from the spec: what [Tensor::Inverse] returns, the inverse of
    the matrix.  [N] is the inverse of the n×n matrix [G]. *)
Definition is_inverse (n : nat) (G N : Matrix) : Prop :=
  shaped n n N ∧ Matmul N G = Eye n ∧ Matmul G N = Eye n.

Definition Inverse_contract (Inverse : Matrix → option Matrix)
    (n : nat) (G : Matrix) : Prop :=
  ∃ N, Inverse G = Some N ∧ is_inverse n G N.

(** The matrix the reconstructor hands to [Inverse]. *)
Definition gathered_identity (n : nat) (ipiv : list Z) : option Matrix :=
  GetColPermutation ipiv (length ipiv) n ≫= IndexGet (Eye n).

(** Modelled from the spec: the row exchanges recorded by the pivot array,
    "entry i (1-based) records that during elimination, row i was exchanged
    with row ipiv[i]", replayed in order on the rows of a matrix. *)
Definition exchange_rows (ipiv : list Z) (A : Matrix) : Matrix :=
  replay_from [] 0 ipiv A.

(** A column-major n×n buffer read as a matrix. *)
Definition column_major (n : nat) (buf : list Qc) : Matrix :=
  tabulate n n (λ i j, nth (j * n + i) buf 0%Qc).

(** Modelled from the spec: the factorisation kernel, "given a column-major
    buffer, returns the combined L\U buffer in place and a 1-based
    pivot-index array"; in the words of the source (LU.cpp, lines 80-84),
    "lower triangular elements as L, upper triangular and diagonal elements
    as U, (diagonal elements of L are unity), and ipiv array, which has the
    pivot indices (for 1 <= i <= min(M,N), row i of the matrix was
    interchanged with row IPIV(i)".  The exchanged rows of the input are the
    product of the two triangular parts of the combined buffer. *)
Definition getrf_contract (n : nat) (buf_in : list Qc)
    (result : list Qc * list Z) : Prop :=
  length result.1 = (n * n)%nat
  ∧ valid_pivots n result.2
  ∧ exchange_rows result.2 (column_major n buf_in)
    = Matmul (unit_lower_part (column_major n result.1))
             (upper_part (column_major n result.1)).

(** ** The decoded permutation as a matrix

    "full[j] is the original row index now occupying position j." *)
Definition source_row (full : list Z) (j : nat) : nat :=
  Z.to_nat (nth j full 0%Z).

(** The rows of the identity gathered by [full]: row [j] is the unit vector
    of [full[j]]. *)
Definition selection (n : nat) (full : list Z) : Matrix :=
  tabulate n n (λ j c, if decide (source_row full j = c) then 1%Qc else 0%Qc).

(** The rows of [M] gathered by [full]. *)
Definition gather_rows (M : Matrix) (full : list Z) : Matrix :=
  (λ k, nth (Z.to_nat k) M []) <$> full.

(** ** Shapes of the factors

    The quantifiers range over the indices [0 .. n-1] as lists, so that the
    predicates can be decided on a given matrix. *)

Definition upper_triangular (n : nat) (U : Matrix) : Prop :=
  shaped n n U
  ∧ Forall (λ i, Forall (λ j, (j < i)%nat → entry U i j = 0%Qc) (seq 0 n))
           (seq 0 n).

Definition unit_lower_triangular (n : nat) (L : Matrix) : Prop :=
  shaped n n L
  ∧ Forall (λ i, Forall (λ j, (i < j)%nat → entry L i j = 0%Qc) (seq 0 n))
           (seq 0 n)
  ∧ Forall (λ i, entry L i i = 1%Qc) (seq 0 n).

(** Exactly one of [f 0 .. f (n-1)] is 1, every other one is 0. *)
Definition one_hot (n : nat) (f : nat → Qc) : Prop :=
  Exists (λ j, f j = 1%Qc ∧ Forall (λ j', j' ≠ j → f j' = 0%Qc) (seq 0 n))
         (seq 0 n).

(** Exactly one entry 1 in each row and in each column, every other entry
    0. *)
Definition permutation_matrix (n : nat) (P : Matrix) : Prop :=
  shaped n n P
  ∧ Forall (λ i, one_hot n (λ j, entry P i j)) (seq 0 n)
  ∧ Forall (λ j, one_hot n (λ i, entry P i j)) (seq 0 n).

Global Instance valid_pivots_dec n ipiv : Decision (valid_pivots n ipiv).
Proof. unfold valid_pivots. apply _. Defined.
Global Instance shaped_dec r c M : Decision (shaped r c M).
Proof. unfold shaped. apply _. Defined.
Global Instance is_inverse_dec n G N : Decision (is_inverse n G N).
Proof. unfold is_inverse. apply _. Defined.
Global Instance getrf_contract_dec n buf result :
  Decision (getrf_contract n buf result).
Proof. unfold getrf_contract. apply _. Defined.
Global Instance upper_triangular_dec n U : Decision (upper_triangular n U).
Proof. unfold upper_triangular. apply _. Defined.
Global Instance unit_lower_triangular_dec n L :
  Decision (unit_lower_triangular n L).
Proof. unfold unit_lower_triangular. apply _. Defined.
Global Instance one_hot_dec n f : Decision (one_hot n f).
Proof. unfold one_hot. apply _. Defined.
Global Instance permutation_matrix_dec n P : Decision (permutation_matrix n P).
Proof. unfold permutation_matrix. apply _. Defined.

(** ** Tensors in memory

    Modelled from the spec: the tensor abstraction ("allocation, device
    placement, dtype, transpose, indexing"), whose declarations ([Dtype],
    [Device], [Tensor]) are in headers that are not part of this file.  A
    tensor is a handle (shape, strides, element type, device) on a blob of
    the store; [T] makes a view on the same blob, [Clone] and [Contiguous]
    copy into a new one. *)

Inductive Dtype :=
  Undefined | Float32 | Float64 | Int32 | Int64 | UInt8 | UInt16 | Bool.

Inductive DeviceType := CPU | CUDA.

Record Device := mkDevice { device_type : DeviceType; device_id : nat }.

Inductive Blob :=
  | FloatBlob (data : list Qc)
  | IntBlob (data : list Z).

Record Tensor := mkTensor {
  shape_ : list nat;
  strides_ : list nat;
  blob_ : positive;
  dtype_ : Dtype;
  device_ : Device }.

Global Instance Dtype_eq_dec : EqDecision Dtype.
Proof. solve_decision. Defined.
Global Instance DeviceType_eq_dec : EqDecision DeviceType.
Proof. solve_decision. Defined.
Global Instance Device_eq_dec : EqDecision Device.
Proof. solve_decision. Defined.
Global Instance Blob_eq_dec : EqDecision Blob.
Proof. solve_decision. Defined.
Global Instance Tensor_eq_dec : EqDecision Tensor.
Proof. solve_decision. Defined.

(** Fatal errors, named as the specification's taxonomy; in the source each
    is a call of [utility::LogError], which raises. *)
Inductive FatalError :=
  | UnsupportedDtype (received : Dtype)
      (* "Only tensors with Float32 or Float64 are supported, but received {}." *)
  | InvalidRank (rank : nat)
      (* "Tensor A must be 2D, but got {}D." *)
  | NotSquare (rows cols : nat)
      (* "Tensor A must be square, but got {} x {}." *)
  | EmptyDimension
      (* "Tensor shapes should not contain dimensions with zero." *)
  | UnsupportedIntegerWidth.
      (* "Unsupported OPEN3D_CPU_LINALG_INT type." *)

Global Instance FatalError_eq_dec : EqDecision FatalError.
Proof. solve_decision. Defined.

(** What a call leaves behind besides its results: the diagnostics logged by
    [utility::LogInfo] and the kernels invoked. *)
Inductive Event :=
  | Info (message : string)
  | CallLUCPU (n : nat) (dtype : Dtype) (device : Device)
  | CallLUCUDA (n : nat) (dtype : Dtype) (device : Device).

Global Instance Event_eq_dec : EqDecision Event.
Proof. solve_decision. Defined.

(** The state threaded through [LU_with_ipiv]: the store of blobs, the two
    tensors bound to the reference parameters [ipiv] and [output], and the
    events so far. *)
Record State := mkState {
  st_memory : gmap positive Blob;
  st_ipiv : Tensor;
  st_output : Tensor;
  st_events : list Event }.

Definition M (X : Type) : Type := State → (FatalError + X) * State.

Global Instance M_ret : MRet M := λ X x st, (inr x, st).

Global Instance M_bind : MBind M := λ X Y f m st,
  match m st with
  | (inl e, st') => (inl e, st')
  | (inr x, st') => f x st'
  end.

(** Modelled from the spec: [utility::LogError] raises a fatal error. *)
Definition LogError {X} (e : FatalError) : M X := λ st, (inl e, st).

(** Modelled from the spec: [utility::LogInfo] logs a diagnostic and
    returns. *)
Definition LogInfo (message : string) : M unit := λ st,
  (inr (), mkState (st_memory st) (st_ipiv st) (st_output st)
                   (st_events st ++ [Info message])).

Definition get_memory : M (gmap positive Blob) := λ st, (inr (st_memory st), st).
Definition get_output : M Tensor := λ st, (inr (st_output st), st).
Definition get_ipiv : M Tensor := λ st, (inr (st_ipiv st), st).

Definition set_output (t : Tensor) : M unit := λ st,
  (inr (), mkState (st_memory st) (st_ipiv st) t (st_events st)).

Definition set_ipiv (t : Tensor) : M unit := λ st,
  (inr (), mkState (st_memory st) t (st_output st) (st_events st)).

(** A new blob, at an address that is not in use. *)
Definition allocate (b : Blob) : M positive := λ st,
  let l := fresh (dom (st_memory st)) in
  (inr l, mkState (<[l := b]> (st_memory st)) (st_ipiv st) (st_output st)
                  (st_events st)).

(** *** Layout *)

(** The offsets of the elements of a tensor, in row-major order of their
    indices. *)
Fixpoint offsets (shape strides : list nat) : list nat :=
  match shape, strides with
  | d :: shape', s :: strides' =>
      i ← seq 0 d; (λ o, (i * s + o)%nat) <$> offsets shape' strides'
  | _, _ => [0%nat]
  end.

Fixpoint default_strides (shape : list nat) : list nat :=
  match shape with
  | [] => []
  | _ :: shape' => foldr Nat.mul 1%nat shape' :: default_strides shape'
  end.

Definition gather {A} (d : A) (raw : list A) (offs : list nat) : list A :=
  (λ o, nth o raw d) <$> offs.

Definition gather_blob (b : Blob) (offs : list nat) : Blob :=
  match b with
  | FloatBlob raw => FloatBlob (gather 0%Qc raw offs)
  | IntBlob raw => IntBlob (gather 0%Z raw offs)
  end.

Definition float_data (mem : gmap positive Blob) (l : positive) : list Qc :=
  match mem !! l with Some (FloatBlob raw) => raw | _ => [] end.

Definition int_data (mem : gmap positive Blob) (l : positive) : list Z :=
  match mem !! l with Some (IntBlob raw) => raw | _ => [] end.

(** The values of a 2-D float tensor, as a matrix. *)
Definition tensor_matrix (mem : gmap positive Blob) (t : Tensor) : Matrix :=
  match shape_ t, strides_ t with
  | [r; c], [s0; s1] =>
      tabulate r c (λ i j, nth (i * s0 + j * s1) (float_data mem (blob_ t)) 0%Qc)
  | _, _ => []
  end.

(** The values of an integer tensor, in row-major order. *)
Definition tensor_ints (mem : gmap positive Blob) (t : Tensor) : list Z :=
  gather 0%Z (int_data mem (blob_ t)) (offsets (shape_ t) (strides_ t)).

(** *** Tensor operations used by the driver *)

(** Modelled from the spec: [Tensor::T], "transpose": a view with the two
    dimensions exchanged, on the same blob (a tensor of more than two
    dimensions is not accepted by the library and does not reach [T]
    here). *)
Definition T (t : Tensor) : Tensor :=
  match shape_ t, strides_ t with
  | [r; c], [s0; s1] => mkTensor [c; r] [s1; s0] (blob_ t) (dtype_ t) (device_ t)
  | _, _ => t
  end.

(** Modelled from the spec: [Tensor::Clone], "a transposed, contiguous,
    independent copy" when applied to a transposed view. *)
Definition Clone (t : Tensor) : M Tensor :=
  mem ← get_memory;
  l ← allocate (gather_blob (default (FloatBlob []) (mem !! blob_ t))
                            (offsets (shape_ t) (strides_ t)));
  mret (mkTensor (shape_ t) (default_strides (shape_ t)) l (dtype_ t) (device_ t)).

(** Modelled from the spec: [Tensor::Contiguous],
    "contiguity-materialization": the tensor itself when its layout is the
    default one, a contiguous copy otherwise. *)
Definition Contiguous (t : Tensor) : M Tensor :=
  if decide (strides_ t = default_strides (shape_ t)) then mret t else Clone t.

(** Modelled from the spec: [Tensor::Empty], "empty-allocation with
    device/dtype": a new tensor on a new blob ([Empty_blob]); its contents,
    unspecified in the library, are zeros here. *)
Definition Empty_blob (shape : list nat) (dtype : Dtype) : Blob :=
  match dtype with
  | Float32 | Float64 => FloatBlob (replicate (foldr Nat.mul 1%nat shape) 0%Qc)
  | _ => IntBlob (replicate (foldr Nat.mul 1%nat shape) 0%Z)
  end.

Definition Empty (shape : list nat) (dtype : Dtype) (device : Device) : M Tensor :=
  l ← allocate (Empty_blob shape dtype);
  mret (mkTensor shape (default_strides shape) l dtype device).

Definition GetDataPtr (t : Tensor) : positive := blob_ t.

(** Modelled from the spec: the default constructor [Tensor()], a tensor
    without elements on the host, on a new blob. *)
Definition Tensor_default (mem : gmap positive Blob)
    : Tensor * gmap positive Blob :=
  let l := fresh (dom mem) in
  (mkTensor [0%nat] [1%nat] l Undefined (mkDevice CPU 0),
   <[l := IntBlob []]> mem).

(** ** LU_with_ipiv (LU.cpp, lines 49-108) *)

Section Driver.

(** Modelled from the spec: the kernels [LUCPU] and [LUCUDA] (declared in
    LUImpl.h) factorise the buffer at [A_data] in place and fill the buffer
    at [ipiv_data]; they are parameters, functions from the contents of the
    first buffer to the new contents of both.  Their contract is
    [getrf_contract]. *)
Variable LUCPU LUCUDA : list Qc → nat → Dtype → Device → list Qc * list Z.

(** Build-time constants: whether [BUILD_CUDA_MODULE] is defined, and
    [sizeof(OPEN3D_CPU_LINALG_INT)]. *)
Variable BUILD_CUDA_MODULE : bool.
Variable sizeof_OPEN3D_CPU_LINALG_INT : Z.

(** [Tensor::Inverse], the parameter of the reconstructor. *)
Variable Inverse : Matrix → option Matrix.

(** A call [kernel(A_data, ipiv_data, n, dtype, device)]: the kernel reads
    the buffer at [A_data] and writes to the two buffers it is given. *)
Definition run_kernel
    (kernel : list Qc → nat → Dtype → Device → list Qc * list Z)
    (call : Event) (A_data ipiv_data : positive)
    (n : nat) (dtype : Dtype) (device : Device) : M unit := λ st,
  let result := kernel (float_data (st_memory st) A_data) n dtype device in
  (inr (),
   mkState (<[ipiv_data := IntBlob result.2]>
              (<[A_data := FloatBlob result.1]> (st_memory st)))
           (st_ipiv st) (st_output st) (st_events st ++ [call])).

(** [A_shape[0]] and [A_shape[1]] are read after the check of the rank has
    raised for every shape that does not have them. *)
Definition LU_with_ipiv (A : Tensor) : M unit :=
  let device := device_ A in
  (* Check dtypes. *)
  let dtype := dtype_ A in
  (if decide (dtype ≠ Float32 ∧ dtype ≠ Float64)
   then LogError (UnsupportedDtype dtype) else mret ());;
  (* Check dimensions. *)
  let A_shape := shape_ A in
  (if decide (length A_shape ≠ 2%nat)
   then LogError (InvalidRank (length A_shape)) else mret ());;
  (if decide (nth 0 A_shape 0%nat ≠ nth 1 A_shape 0%nat)
   then LogError (NotSquare (nth 0 A_shape 0%nat) (nth 1 A_shape 0%nat))
   else mret ());;
  let n := nth 0 A_shape 0%nat in
  (if decide (n = 0%nat) then LogError EmptyDimension else mret ());;
  (* Operations are COL_MAJOR. *)
  output ← Clone (T A);
  set_output output;;
  let A_data := GetDataPtr output in
  (if decide (device_type device = CUDA) then
     if BUILD_CUDA_MODULE then
       ipiv ← Empty [n] Int32 device;
       set_ipiv ipiv;;
       let ipiv_data := GetDataPtr ipiv in
       run_kernel LUCUDA (CallLUCUDA n dtype device) A_data ipiv_data
                  n dtype device
     else
       LogInfo "Unimplemented device."
   else
     ipiv_dtype ←
       (if decide (sizeof_OPEN3D_CPU_LINALG_INT = 4%Z) then mret Int32
        else if decide (sizeof_OPEN3D_CPU_LINALG_INT = 8%Z) then mret Int64
        else LogError UnsupportedIntegerWidth);
     ipiv ← Empty [n] ipiv_dtype device;
     set_ipiv ipiv;;
     let ipiv_data := GetDataPtr ipiv in
     run_kernel LUCPU (CallLUCPU n dtype device) A_data ipiv_data
                n dtype device);;
  (* COL_MAJOR -> ROW_MAJOR. *)
  output ← get_output;
  output ← Contiguous (T output);
  set_output output.

(** ** LU (LU.cpp, lines 110-119)

    The locals [ipiv] and [output] are default-constructed tensors; the
    three results are returned as values. *)
Definition LU (A : Tensor) (permute_l : bool)
    (mem : gmap positive Blob) (events : list Event)
    : (FatalError + option (Matrix * Matrix * Matrix)) * State :=
  let ipiv := Tensor_default mem in
  let output := Tensor_default ipiv.2 in
  (LU_with_ipiv A;;
   mem ← get_memory;
   ipiv ← get_ipiv;
   output ← get_output;
   mret (OutputToPLU Inverse (tensor_matrix mem output)
                     (tensor_ints mem ipiv) permute_l))
    (mkState output.2 ipiv.1 output.1 events).

End Driver.

(** ** Validation as the specification words it

    "dtype must be 32- or 64-bit float, else UnsupportedDtype; rank must be
    exactly 2, else InvalidRank; must be square, else NotSquare; dimension
    must be nonzero, else EmptyDimension", in this order. *)
Definition spec_validation (dtype : Dtype) (shape : list nat)
    : option FatalError :=
  match dtype with
  | Float32 | Float64 =>
      match shape with
      | [rows; cols] =>
          if decide (rows = cols) then
            if decide (rows = 0%nat) then Some EmptyDimension else None
          else Some (NotSquare rows cols)
      | _ => Some (InvalidRank (length shape))
      end
  | _ => Some (UnsupportedDtype dtype)
  end.

(** A tensor the driver accepts: a square float matrix of [n ≥ 1] rows,
    whose elements all lie in its blob. *)
Definition valid_input (mem : gmap positive Blob) (A : Tensor) (n : nat) : Prop :=
  (dtype_ A = Float32 ∨ dtype_ A = Float64)
  ∧ shape_ A = [n; n] ∧ (1 ≤ n)%nat
  ∧ length (strides_ A) = 2%nat
  ∧ match mem !! blob_ A with
    | Some (FloatBlob raw) =>
        Forall (λ o, (o < length raw)%nat) (offsets (shape_ A) (strides_ A))
    | _ => False
    end.

Global Instance valid_input_dec mem A n : Decision (valid_input mem A n).
Proof.
  unfold valid_input. destruct (mem !! blob_ A) as [[raw|raw]|]; apply _.
Defined.

(** Backend selection as the specification words it: "if the tensor
    resides on an accelerator device, dispatch to the accelerator
    factorization kernel and allocate the pivot array with a fixed 32-bit
    integer element type; if on host, dispatch to the host factorization
    kernel and allocate the pivot array using whatever integer width the
    host backend reports", with the accelerator kernel there only when it is
    compiled in. *)
Inductive dispatched
    (LUCPU LUCUDA : list Qc → nat → Dtype → Device → list Qc * list Z)
    (BUILD_CUDA_MODULE : bool) (sizeof_OPEN3D_CPU_LINALG_INT : Z)
    (device : Device) (n : nat) (dtype : Dtype)
    : (list Qc → nat → Dtype → Device → list Qc * list Z) →
      Event → Dtype → Prop :=
  | dispatched_accelerator :
      device_type device = CUDA → BUILD_CUDA_MODULE = true →
      dispatched LUCPU LUCUDA BUILD_CUDA_MODULE sizeof_OPEN3D_CPU_LINALG_INT
                 device n dtype LUCUDA (CallLUCUDA n dtype device) Int32
  | dispatched_host_32 :
      device_type device = CPU → sizeof_OPEN3D_CPU_LINALG_INT = 4%Z →
      dispatched LUCPU LUCUDA BUILD_CUDA_MODULE sizeof_OPEN3D_CPU_LINALG_INT
                 device n dtype LUCPU (CallLUCPU n dtype device) Int32
  | dispatched_host_64 :
      device_type device = CPU → sizeof_OPEN3D_CPU_LINALG_INT = 8%Z →
      dispatched LUCPU LUCUDA BUILD_CUDA_MODULE sizeof_OPEN3D_CPU_LINALG_INT
                 device n dtype LUCPU (CallLUCPU n dtype device) Int64.

(** The blobs of [mem] are blobs of [mem'], with the same contents. *)
Definition extends (mem mem' : gmap positive Blob) : Prop :=
  ∀ l, l ∈ dom mem → l ∈ dom mem' ∧ mem' !! l = mem !! l.

(** The buffer the driver hands to the kernel for the input [A]: the
    column-major layout of [A]. *)
Definition kernel_buffer (mem : gmap positive Blob) (A : Tensor) : list Qc :=
  mjoin (transpose (tensor_matrix mem A)).

(** ** Reference collaborators

    Executable stand-ins for the collaborators, on exact rationals: a
    LAPACK-style [getrf] with partial pivoting on a column-major buffer, and
    a Gauss-Jordan inverse.  The theorems below hold for any collaborator
    that meets its contract at the input; these two serve to run the model
    on concrete inputs. *)

Definition Qc_abs (x : Qc) : Qc := if decide (x < 0)%Qc then (- x)%Qc else x.

(** The first row of largest magnitude in column [k], from row [k] on. *)
Definition pivot_row (M : Matrix) (k n : nat) : nat :=
  foldl (λ best i,
           if decide (Qc_abs (entry M best k) < Qc_abs (entry M i k))%Qc
           then i else best)
        k (seq (S k) (n - S k)).

Definition eliminate_below (M : Matrix) (k : nat) : Matrix :=
  let pivot := entry M k k in
  imap (λ i row,
          if decide (i ≤ k)%nat then row
          else
            let l := if decide (pivot = 0%Qc) then entry M i k
                     else (entry M i k / pivot)%Qc in
            imap (λ j x, if decide (j < k)%nat then x
                         else if decide (j = k) then l
                         else (x - l * entry M k j)%Qc) row) M.

Definition getrf_step (n : nat) (state : Matrix * list Z) (k : nat)
    : Matrix * list Z :=
  let p := pivot_row state.1 k n in
  let M := if decide (entry state.1 p k = 0%Qc) then state.1
           else swap_entries [] state.1 k p in
  (eliminate_below M k, state.2 ++ [(Z.of_nat p + 1)%Z]).

Definition getrf_reference (buf : list Qc) (n : nat)
    (dtype : Dtype) (device : Device) : list Qc * list Z :=
  let final := foldl (getrf_step n) (column_major n buf, []) (seq 0 n) in
  (mjoin (transpose final.1), final.2).

Definition gauss_jordan_step (n : nat) (state : option Matrix) (k : nat)
    : option Matrix :=
  M ← state;
  let p := pivot_row M k n in
  if decide (entry M p k = 0%Qc) then None
  else
    let M := swap_entries [] M k p in
    let pivot := entry M k k in
    let pivot_row := (λ x, (x / pivot)%Qc) <$> nth k M [] in
    Some (imap (λ i row,
                  if decide (i = k) then pivot_row
                  else zip_with (λ x y, (x - nth k row 0%Qc * y)%Qc)
                                row pivot_row) M).

Definition Inverse_reference (G : Matrix) : option Matrix :=
  let n := length G in
  match foldl (gauss_jordan_step n) (Some (zip_with app G (Eye n))) (seq 0 n)
  with
  | Some M => Some (map (drop n) M)
  | None => None
  end.

(** ** Concrete inputs *)

Definition host : Device := mkDevice CPU 0.
Definition accelerator : Device := mkDevice CUDA 0.

Definition matrix_of_integers (rows : list (list Z)) : Matrix :=
  map (map Qz) rows.

(** A dense 3×3 matrix, and a 3×3 matrix whose pivoting is a 3-cycle. *)
Definition dense_matrix : Matrix :=
  matrix_of_integers [[1; 2; 3]; [4; 5; 6]; [7; 8; 10]]%Z.

Definition cyclic_matrix : Matrix :=
  matrix_of_integers [[0; 2; 0]; [0; 0; 3]; [5; 0; 0]]%Z.

(** A store with one row-major 3×3 blob, and the tensor on it. *)
Definition store_of (M : Matrix) : gmap positive Blob :=
  {[ 1%positive := FloatBlob (mjoin M) ]}.

Definition tensor_on (device : Device) : Tensor :=
  mkTensor [3; 3]%nat [3; 1]%nat 1%positive Float64 device.

(** The state of a caller whose [ipiv] and [output] are tensors without
    elements on a second blob. *)
Definition caller_state (M : Matrix) : State :=
  mkState (<[2%positive := IntBlob []]> (store_of M))
          (mkTensor [0%nat] [1%nat] 2%positive Undefined host)
          (mkTensor [0%nat] [1%nat] 2%positive Undefined host) [].

(** The factors of [cyclic_matrix]. *)
Definition cyclic_P : Matrix :=
  matrix_of_integers [[0; 1; 0]; [0; 0; 1]; [1; 0; 0]]%Z.
Definition cyclic_L : Matrix :=
  matrix_of_integers [[1; 0; 0]; [0; 1; 0]; [0; 0; 1]]%Z.
Definition cyclic_U : Matrix :=
  matrix_of_integers [[5; 0; 0]; [0; 2; 0]; [0; 0; 3]]%Z.

(** The combined buffer (row-major) and the pivot array that [getrf] gives
    for [dense_matrix]. *)
Definition dense_output : Matrix :=
  [[Qz 7; Qz 8; Qz 10];
   [Q2Qc (1 # 7); Q2Qc (6 # 7); Q2Qc (11 # 7)];
   [Q2Qc (4 # 7); Q2Qc (1 # 2); Q2Qc (-1 # 2)]].

Definition dense_ipiv : list Z := [3; 3; 3]%Z.

(** The factors of [dense_matrix]; its permutation is [cyclic_P] too. *)
Definition dense_L : Matrix :=
  [[Qz 1; Qz 0; Qz 0];
   [Q2Qc (1 # 7); Qz 1; Qz 0];
   [Q2Qc (4 # 7); Q2Qc (1 # 2); Qz 1]].

Definition dense_U : Matrix :=
  [[Qz 7; Qz 8; Qz 10];
   [Qz 0; Q2Qc (6 # 7); Q2Qc (11 # 7)];
   [Qz 0; Qz 0; Q2Qc (-1 # 2)]].

(** * Facts on the decoder *)

Section Decoder.

Implicit Types (full ipiv : list Z) (i k n : nat).

Lemma length_Arange n : length (Arange n) = n.
Proof. unfold Arange. by rewrite length_fmap, length_seq. Qed.

Lemma c_read_nat {A} (a : list A) i : c_read a (Z.of_nat i) = a !! i.
Proof.
  unfold c_read. rewrite decide_True by lia. by rewrite Nat2Z.id.
Qed.

Lemma c_write_nat {A} (a : list A) i v :
  (i < length a)%nat → c_write a (Z.of_nat i) v = Some (<[i := v]> a).
Proof.
  intros Hi. unfold c_write. rewrite decide_True by lia. by rewrite Nat2Z.id.
Qed.

(** The loop body on in-range indices: the two assignments. *)
Lemma swap_iteration_Some ipiv full i p temp x :
  full !! i = Some temp →
  ipiv !! i = Some p →
  1 ≤ p ≤ Z.of_nat (length full) →
  full !! Z.to_nat (p - 1) = Some x →
  swap_iteration ipiv (Some full) i
  = Some (<[Z.to_nat (p - 1) := temp]> (<[i := x]> full)).
Proof.
  intros Htemp Hp Hrange Hx. unfold swap_iteration. simpl.
  rewrite !c_read_nat, Htemp, Hp. simpl.
  replace (p - 1) with (Z.of_nat (Z.to_nat (p - 1))) by lia.
  rewrite c_read_nat, Hx. simpl.
  rewrite c_write_nat by (by eapply lookup_lt_Some). simpl.
  rewrite c_write_nat by (rewrite length_insert; lia).
  by rewrite Nat2Z.id.
Qed.

Lemma swap_entries_insert {A} (d : A) (l : list A) a b x y :
  l !! a = Some x → l !! b = Some y →
  <[b := x]> (<[a := y]> l) = swap_entries d l a b.
Proof.
  intros Ha Hb. apply list_eq. intros k. unfold swap_entries.
  destruct (decide (k < length l)%nat) as [Hk|Hk].
  - rewrite list_lookup_fmap, lookup_seq_lt by done. simpl.
    destruct (decide (k = b)) as [->|Hkb].
    + rewrite list_lookup_insert_eq by (by rewrite length_insert).
      case_decide; subst.
      * f_equal. symmetry. apply nth_lookup_Some with (d := d) in Hb.
        apply nth_lookup_Some with (d := d) in Ha. congruence.
      * f_equal. symmetry. by apply nth_lookup_Some.
    + rewrite list_lookup_insert_ne by done.
      destruct (decide (k = a)) as [->|Hka].
      * rewrite list_lookup_insert_eq by done. f_equal. symmetry.
        by apply nth_lookup_Some.
      * rewrite list_lookup_insert_ne by done.
        destruct (lookup_lt_is_Some_2 l k Hk) as [v Hv].
        rewrite Hv. f_equal. symmetry. by apply nth_lookup_Some.
  - rewrite (lookup_ge_None_2 (_ <$> _)) by (rewrite length_fmap, length_seq; lia).
    apply lookup_ge_None_2. rewrite !length_insert. lia.
Qed.

Lemma length_swap_entries {A} (d : A) (l : list A) a b :
  length (swap_entries d l a b) = length l.
Proof. unfold swap_entries. by rewrite length_fmap, length_seq. Qed.

(** The loop from index [i] on, against the replay of the remaining pivots. *)
Lemma loop_replay ipiv_done ipiv_rest full n :
  length full = n →
  Forall (λ p, 1 ≤ p ≤ Z.of_nat n) ipiv_rest →
  (length ipiv_done + length ipiv_rest ≤ n)%nat →
  foldl (swap_iteration (ipiv_done ++ ipiv_rest)) (Some full)
        (seq (length ipiv_done) (length ipiv_rest))
  = Some (replay_from 0 (length ipiv_done) ipiv_rest full).
Proof.
  revert ipiv_done full.
  induction ipiv_rest as [|p rest IH]; intros ipiv_done full Hlen Hall Hle.
  - done.
  - apply Forall_cons in Hall as [Hp Hrest]. simpl in Hle.
    cbn [length seq foldl replay_from].
    destruct (lookup_lt_is_Some_2 full (length ipiv_done)) as [temp Htemp];
      [lia|].
    destruct (lookup_lt_is_Some_2 full (Z.to_nat (p - 1))) as [x Hx]; [lia|].
    rewrite (swap_iteration_Some _ _ _ p temp x); try done.
    + rewrite (swap_entries_insert 0 _ _ _ _ _ Htemp Hx).
      specialize (IH (ipiv_done ++ [p]) (swap_entries 0 full (length ipiv_done)
                                        (Z.to_nat (p - 1)))).
      rewrite <- app_assoc, length_app in IH. simpl in IH.
      replace (length ipiv_done + 1)%nat with (S (length ipiv_done)) in IH by lia.
      apply IH; [by rewrite length_swap_entries|done|lia].
    + by rewrite lookup_app_r, Nat.sub_diag.
    + lia.
Qed.

Lemma GetColPermutation_decode ipiv n :
  valid_pivots n ipiv →
  GetColPermutation ipiv (length ipiv) n = Some (decode_spec ipiv n).
Proof.
  intros [Hlen Hall]. unfold GetColPermutation, decode_spec.
  pose proof (loop_replay [] ipiv (Arange n) n) as H. simpl in H.
  rewrite Hlen in H. apply H; [apply length_Arange|done|lia].
Qed.

End Decoder.

(** * Facts on matrices *)

Section MatrixFacts.

Implicit Types (M N U : Matrix) (r c n i j k : nat).

Lemma length_tabulate r c f : length (tabulate r c f) = r.
Proof. unfold tabulate. by rewrite length_fmap, length_seq. Qed.

Lemma nth_tabulate r c f i :
  (i < r)%nat → nth i (tabulate r c f) [] = f i <$> seq 0 c.
Proof.
  intros Hi. apply nth_lookup_Some with (d := []) (i := i).
  unfold tabulate. by rewrite list_lookup_fmap, lookup_seq_lt.
Qed.

Lemma entry_tabulate r c f i j :
  (i < r)%nat → (j < c)%nat → entry (tabulate r c f) i j = f i j.
Proof.
  intros Hi Hj. unfold entry. rewrite nth_tabulate by done.
  apply nth_lookup_Some with (i := j).
  by rewrite list_lookup_fmap, lookup_seq_lt.
Qed.

Lemma shaped_tabulate r c f : shaped r c (tabulate r c f).
Proof.
  split; [apply length_tabulate|]. unfold tabulate.
  apply Forall_fmap, Forall_forall. intros i _. simpl.
  by rewrite length_fmap, length_seq.
Qed.

Lemma ncols_shaped r c M : shaped r c M → (0 < r)%nat → ncols M = c.
Proof.
  intros [Hlen Hrows] Hr. unfold ncols. destruct M as [|row M]; simpl in *.
  - lia.
  - by apply Forall_cons in Hrows as [? _].
Qed.

Lemma ncols_square n M : shaped n n M → ncols M = n.
Proof.
  intros HM. destruct n.
  - destruct HM as [Hlen _]. by destruct M.
  - apply (ncols_shaped _ _ _ HM). lia.
Qed.

Lemma ncols_tabulate r c f : (0 < r)%nat → ncols (tabulate r c f) = c.
Proof. apply ncols_shaped, shaped_tabulate. Qed.

Lemma tabulate_ext r c f g :
  (∀ i j, (i < r)%nat → (j < c)%nat → f i j = g i j) →
  tabulate r c f = tabulate r c g.
Proof.
  intros Hfg. unfold tabulate. apply list_eq. intros i.
  rewrite !list_lookup_fmap.
  destruct (decide (i < r)%nat) as [Hi|Hi].
  - rewrite lookup_seq_lt by done. simpl. f_equal.
    apply list_eq. intros j. rewrite !list_lookup_fmap.
    destruct (decide (j < c)%nat) as [Hj|Hj].
    + rewrite lookup_seq_lt by done. simpl. f_equal. by apply Hfg.
    + by rewrite lookup_seq_ge by lia.
  - by rewrite lookup_seq_ge by lia.
Qed.

Lemma tabulate_entry r c M : shaped r c M → tabulate r c (entry M) = M.
Proof.
  intros [Hlen Hrows]. unfold tabulate. apply list_eq. intros i.
  rewrite list_lookup_fmap.
  destruct (decide (i < r)%nat) as [Hi|Hi].
  - rewrite lookup_seq_lt by done. simpl.
    destruct (lookup_lt_is_Some_2 M i) as [row Hrow]; [lia|].
    rewrite Hrow. f_equal.
    assert (Hc : length row = c).
    { rewrite Forall_forall in Hrows. eapply Hrows, list_elem_of_lookup_2, Hrow. }
    apply list_eq. intros j. rewrite list_lookup_fmap.
    destruct (decide (j < c)%nat) as [Hj|Hj].
    + rewrite lookup_seq_lt by done. simpl.
      destruct (lookup_lt_is_Some_2 row j) as [x Hx]; [lia|].
      rewrite Hx. f_equal. unfold entry.
      rewrite (nth_lookup_Some _ _ [] _ Hrow). by apply nth_lookup_Some.
    + rewrite lookup_seq_ge by lia. symmetry. apply lookup_ge_None_2. lia.
  - rewrite lookup_seq_ge by lia. symmetry. apply lookup_ge_None_2. lia.
Qed.

(** Two matrices of one shape with the same entries are equal. *)
Lemma matrix_ext r c M N :
  shaped r c M → shaped r c N →
  (∀ i j, (i < r)%nat → (j < c)%nat → entry M i j = entry N i j) →
  M = N.
Proof.
  intros HM HN Heq.
  rewrite <- (tabulate_entry r c M HM), <- (tabulate_entry r c N HN).
  by apply tabulate_ext.
Qed.

(** *** Sums *)

Lemma sum_upto_S m f : sum_upto (S m) f = (sum_upto m f + f m)%Qc.
Proof.
  unfold sum_upto. rewrite seq_S, foldr_app. simpl.
  generalize (seq 0 m) as l. induction l as [|k l IH]; simpl.
  - ring.
  - rewrite IH. ring.
Qed.

Lemma sum_upto_ext m f g :
  (∀ k, (k < m)%nat → f k = g k) → sum_upto m f = sum_upto m g.
Proof.
  induction m as [|m IH]; intros Hfg; [done|].
  rewrite !sum_upto_S, IH, Hfg by (intros; try apply Hfg; lia). done.
Qed.

Lemma sum_upto_zero m f :
  (∀ k, (k < m)%nat → f k = 0%Qc) → sum_upto m f = 0%Qc.
Proof.
  induction m as [|m IH]; intros Hf; [done|].
  rewrite sum_upto_S, IH, Hf by (intros; try apply Hf; lia). ring.
Qed.

(** A sum with a single term that may differ from zero. *)
Lemma sum_upto_single m f k0 :
  (k0 < m)%nat →
  (∀ k, (k < m)%nat → k ≠ k0 → f k = 0%Qc) →
  sum_upto m f = f k0.
Proof.
  induction m as [|m IH]; intros Hk0 Hf; [lia|].
  rewrite sum_upto_S. destruct (decide (k0 = m)) as [->|Hne].
  - rewrite sum_upto_zero by (intros; apply Hf; lia). ring.
  - rewrite IH, (Hf m) by (intros; try apply Hf; lia). ring.
Qed.

Lemma sum_upto_plus m f g :
  sum_upto m (λ k, (f k + g k)%Qc) = (sum_upto m f + sum_upto m g)%Qc.
Proof.
  induction m as [|m IH]; [unfold sum_upto; simpl; ring|].
  rewrite !sum_upto_S, IH. ring.
Qed.

Lemma sum_upto_scale_l m x f :
  sum_upto m (λ k, (x * f k)%Qc) = (x * sum_upto m f)%Qc.
Proof.
  induction m as [|m IH]; [unfold sum_upto; simpl; ring|].
  rewrite !sum_upto_S, IH. ring.
Qed.

Lemma sum_upto_scale_r m x f :
  sum_upto m (λ k, (f k * x)%Qc) = (sum_upto m f * x)%Qc.
Proof.
  induction m as [|m IH]; [unfold sum_upto; simpl; ring|].
  rewrite !sum_upto_S, IH. ring.
Qed.

Lemma sum_upto_swap m p f :
  sum_upto m (λ k, sum_upto p (λ l, f k l))
  = sum_upto p (λ l, sum_upto m (λ k, f k l)).
Proof.
  induction m as [|m IH].
  - symmetry. by apply sum_upto_zero.
  - rewrite sum_upto_S, IH, <- sum_upto_plus.
    apply sum_upto_ext. intros l _. by rewrite sum_upto_S.
Qed.

(** *** Products *)

Lemma shaped_Matmul M N : shaped (length M) (ncols N) (Matmul M N).
Proof. apply shaped_tabulate. Qed.

Lemma entry_Matmul M N i j :
  (i < length M)%nat → (j < ncols N)%nat →
  entry (Matmul M N) i j
  = sum_upto (length N) (λ k, (entry M i k * entry N k j)%Qc).
Proof. intros. unfold Matmul. by rewrite entry_tabulate. Qed.

Lemma Matmul_square n M N :
  shaped n n M → shaped n n N →
  Matmul M N
  = tabulate n n (λ i j, sum_upto n (λ k, (entry M i k * entry N k j)%Qc)).
Proof.
  intros HM HN. unfold Matmul.
  by rewrite (ncols_square n N HN), (proj1 HM), (proj1 HN).
Qed.

Lemma Matmul_assoc n M N U :
  shaped n n M → shaped n n N → shaped n n U →
  Matmul (Matmul M N) U = Matmul M (Matmul N U).
Proof.
  intros HM HN HU.
  assert (HMN : shaped n n (Matmul M N)).
  { rewrite (Matmul_square n) by done. apply shaped_tabulate. }
  assert (HNU : shaped n n (Matmul N U)).
  { rewrite (Matmul_square n) by done. apply shaped_tabulate. }
  rewrite (Matmul_square n (Matmul M N) U), (Matmul_square n M (Matmul N U))
    by done.
  apply tabulate_ext. intros i j Hi Hj.
  rewrite (Matmul_square n M N), (Matmul_square n N U) by done.
  transitivity (sum_upto n (λ k, sum_upto n (λ l,
                  (entry M i l * entry N l k * entry U k j)%Qc))).
  { apply sum_upto_ext. intros k Hk. rewrite entry_tabulate by done.
    by rewrite sum_upto_scale_r. }
  rewrite sum_upto_swap. apply sum_upto_ext. intros l Hl.
  rewrite entry_tabulate by done. rewrite <- sum_upto_scale_l.
  apply sum_upto_ext. intros k _. ring.
Qed.

Lemma transpose_tabulate n f :
  transpose (tabulate n n f) = tabulate n n (λ i j, f j i).
Proof.
  unfold transpose. rewrite length_tabulate.
  destruct n; [done|]. rewrite ncols_tabulate by lia.
  apply tabulate_ext. intros i j Hi Hj. by rewrite entry_tabulate.
Qed.

Lemma shaped_transpose n M : shaped n n M → shaped n n (transpose M).
Proof.
  intros HM. unfold transpose. rewrite (ncols_square n M HM), (proj1 HM).
  apply shaped_tabulate.
Qed.

Lemma entry_transpose n M i j :
  shaped n n M → (i < n)%nat → (j < n)%nat →
  entry (transpose M) i j = entry M j i.
Proof.
  intros HM Hi Hj. unfold transpose.
  rewrite (ncols_square n M HM), (proj1 HM). by rewrite entry_tabulate.
Qed.

Lemma transpose_involutive n M : shaped n n M → transpose (transpose M) = M.
Proof.
  intros HM.
  apply (matrix_ext n n); [by do 2 apply shaped_transpose|done|].
  intros i j Hi Hj.
  rewrite (entry_transpose n), (entry_transpose n);
    auto using shaped_transpose.
Qed.

(** *** Quantifiers over the indices *)

Lemma Forall_below n (Q : nat → Prop) :
  Forall Q (seq 0 n) ↔ ∀ i, (i < n)%nat → Q i.
Proof.
  rewrite Forall_forall. setoid_rewrite elem_of_seq.
  split; intros H i Hi; apply H; lia.
Qed.

Lemma one_hot_below n f :
  one_hot n f
  ↔ ∃ j, (j < n)%nat ∧ f j = 1%Qc
         ∧ ∀ j', (j' < n)%nat → j' ≠ j → f j' = 0%Qc.
Proof.
  unfold one_hot. rewrite Exists_exists. setoid_rewrite elem_of_seq.
  setoid_rewrite Forall_below.
  split; intros (j & Hj & H1 & H0); exists j; (split; [lia|done]).
Qed.

(** *** The triangular split *)

Lemma upper_part_triangular n M : shaped n n M → upper_triangular n (upper_part M).
Proof.
  intros HM. unfold upper_part. rewrite (ncols_square n M HM), (proj1 HM).
  split; [apply shaped_tabulate|].
  apply Forall_below. intros i Hi. apply Forall_below. intros j Hj Hji.
  rewrite entry_tabulate by lia. by rewrite decide_False by lia.
Qed.

Lemma unit_lower_part_triangular n M :
  shaped n n M → unit_lower_triangular n (unit_lower_part M).
Proof.
  intros HM. unfold unit_lower_part. rewrite (ncols_square n M HM), (proj1 HM).
  split; [apply shaped_tabulate|]. split.
  - apply Forall_below. intros i Hi. apply Forall_below. intros j Hj Hij.
    rewrite entry_tabulate by lia. by rewrite !decide_False by lia.
  - apply Forall_below. intros i Hi. rewrite entry_tabulate by lia.
    rewrite decide_False by lia. by rewrite decide_True.
Qed.

End MatrixFacts.

(** * The decoded index vector is a permutation *)

Section DecodedPermutation.

Implicit Types (full ipiv : list Z) (i j k n : nat).

Lemma insert_Permutation {A} (l : list A) k a b :
  l !! k = Some b → b :: <[k := a]> l ≡ₚ a :: l.
Proof.
  revert k. induction l as [|c l IH]; intros [|k] Hk; simplify_eq/=.
  - apply Permutation_swap.
  - rewrite Permutation_swap, (IH k Hk). apply Permutation_swap.
Qed.

Lemma swap_Permutation {A} (l : list A) i k a b :
  l !! i = Some a → l !! k = Some b → <[k := a]> (<[i := b]> l) ≡ₚ l.
Proof.
  revert i k. induction l as [|c l IH]; intros [|i] [|k] Hi Hk; simplify_eq/=.
  - done.
  - by apply insert_Permutation.
  - by apply insert_Permutation.
  - f_equiv. by apply IH.
Qed.

Lemma swap_iteration_Permutation ipiv full full' i :
  swap_iteration ipiv (Some full) i = Some full' → full' ≡ₚ full.
Proof.
  unfold swap_iteration. simpl. rewrite !c_read_nat.
  destruct (full !! i) as [temp|] eqn:Htemp; [simpl|done].
  destruct (ipiv !! i) as [p|] eqn:Hp; [simpl|done].
  unfold c_read at 1. case_decide as Hp0; [|done].
  destruct (full !! Z.to_nat (p - 1)) as [x|] eqn:Hx; [simpl|done].
  rewrite c_write_nat by (by eapply lookup_lt_Some). simpl.
  unfold c_write. case_decide; [|done]. intros [= <-].
  by apply swap_Permutation.
Qed.

Lemma loop_None ipiv (l : list nat) : foldl (swap_iteration ipiv) None l = None.
Proof. by induction l. Qed.

Lemma loop_Permutation ipiv (l : list nat) full full' :
  foldl (swap_iteration ipiv) (Some full) l = Some full' → full' ≡ₚ full.
Proof.
  revert full. induction l as [|i l IH]; intros full; cbn [foldl].
  - by intros [= ->].
  - destruct (swap_iteration ipiv (Some full) i) as [full1|] eqn:Hstep.
    + intros Hrest. rewrite (IH _ Hrest).
      by eapply swap_iteration_Permutation.
    + by rewrite loop_None.
Qed.

Lemma GetColPermutation_Permutation ipiv k n full :
  GetColPermutation ipiv k n = Some full → full ≡ₚ Arange n.
Proof. apply loop_Permutation. Qed.

Lemma NoDup_Arange n : NoDup (Arange n).
Proof.
  unfold Arange. apply NoDup_fmap_2; [|apply NoDup_seq].
  intros a b. apply Nat2Z.inj.
Qed.

Lemma elem_of_Arange n (z : Z) :
  z ∈ Arange n ↔ ∃ k, z = Z.of_nat k ∧ (k < n)%nat.
Proof.
  unfold Arange. rewrite list_elem_of_fmap. setoid_rewrite elem_of_seq.
  split; intros (k & ? & ?); exists k; split; auto; lia.
Qed.

Section WithPermutation.

Variables (n : nat) (full : list Z).
Hypothesis Hperm : full ≡ₚ Arange n.

Lemma length_decoded : length full = n.
Proof using Hperm. by rewrite Hperm, length_Arange. Qed.

Lemma decoded_lookup j :
  (j < n)%nat →
  full !! j = Some (Z.of_nat (source_row full j)) ∧ (source_row full j < n)%nat.
Proof using Hperm.
  intros Hj. destruct (lookup_lt_is_Some_2 full j) as [z Hz].
  { by rewrite length_decoded. }
  assert (Hin : z ∈ Arange n).
  { rewrite <- Hperm. by eapply list_elem_of_lookup_2. }
  apply elem_of_Arange in Hin as (k & -> & Hk).
  unfold source_row. rewrite (nth_lookup_Some _ _ _ _ Hz), Nat2Z.id. done.
Qed.

Lemma source_row_lt j : (j < n)%nat → (source_row full j < n)%nat.
Proof using Hperm. intros Hj. by apply decoded_lookup. Qed.

Lemma source_row_inj j j' :
  (j < n)%nat → (j' < n)%nat → source_row full j = source_row full j' → j = j'.
Proof using Hperm.
  intros Hj Hj' Heq.
  destruct (decoded_lookup j Hj) as [H1 _].
  destruct (decoded_lookup j' Hj') as [H2 _].
  rewrite Heq in H1.
  assert (Hnd : NoDup full) by (rewrite Hperm; apply NoDup_Arange).
  by eapply NoDup_lookup.
Qed.

Lemma source_row_surj k :
  (k < n)%nat → ∃ j, (j < n)%nat ∧ source_row full j = k.
Proof using Hperm.
  intros Hk.
  assert (Hin : Z.of_nat k ∈ full).
  { rewrite Hperm. apply elem_of_Arange. eauto. }
  apply list_elem_of_lookup_1 in Hin as [j Hj].
  assert (Hjn : (j < n)%nat).
  { rewrite <- length_decoded. by eapply lookup_lt_Some. }
  exists j. split; [done|].
  unfold source_row. by rewrite (nth_lookup_Some _ _ _ _ Hj), Nat2Z.id.
Qed.

Lemma decoded_in_range : Forall (λ k : Z, (0 ≤ k < Z.of_nat n)%Z) full.
Proof using Hperm.
  rewrite Hperm. apply Forall_forall. intros z Hz.
  apply elem_of_Arange in Hz as (k & -> & Hk). lia.
Qed.

End WithPermutation.

(** *** Gathering rows *)

Lemma IndexGet_Some (M : Matrix) (indices : list Z) :
  Forall (λ k : Z, (0 ≤ k < Z.of_nat (length M))%Z) indices →
  IndexGet M indices = Some (gather_rows M indices).
Proof.
  intros Hall. unfold IndexGet, gather_rows. apply mapM_Some_2.
  apply Forall2_fmap_r, Forall_Forall2_diag.
  eapply Forall_impl; [exact Hall|]. intros z Hz. simpl in Hz |- *.
  unfold c_read. rewrite decide_True by lia.
  destruct (lookup_lt_is_Some_2 M (Z.to_nat z)) as [row Hrow]; [lia|].
  rewrite Hrow. f_equal. symmetry. by apply nth_lookup_Some.
Qed.

Lemma gather_rows_tabulate n c (M : Matrix) full :
  full ≡ₚ Arange n → shaped n c M →
  gather_rows M full = tabulate n c (λ j c', entry M (source_row full j) c').
Proof.
  intros Hperm HM. unfold gather_rows, tabulate. apply list_eq. intros j.
  rewrite !list_lookup_fmap.
  destruct (decide (j < n)%nat) as [Hj|Hj].
  - destruct (decoded_lookup n full Hperm j Hj) as [Hlk Hlt].
    rewrite Hlk, lookup_seq_lt by done. simpl. f_equal. rewrite Nat2Z.id.
    set (k := source_row full j) in *.
    rewrite <- (tabulate_entry n c M HM) at 1.
    by rewrite nth_tabulate.
  - rewrite lookup_seq_ge by lia.
    rewrite (lookup_ge_None_2 full) by (rewrite (length_decoded n); [lia|done]).
    done.
Qed.

Lemma entry_Eye n i j :
  (i < n)%nat → (j < n)%nat →
  entry (Eye n) i j = if decide (i = j) then 1%Qc else 0%Qc.
Proof. intros. unfold Eye. by rewrite entry_tabulate. Qed.

Lemma gathered_identity_selection n full :
  full ≡ₚ Arange n → IndexGet (Eye n) full = Some (selection n full).
Proof.
  intros Hperm. rewrite IndexGet_Some.
  - f_equal. rewrite (gather_rows_tabulate n n) by (done || apply shaped_tabulate).
    apply tabulate_ext. intros j c Hj Hc.
    rewrite entry_Eye; [done| |done]. by apply source_row_lt.
  - unfold Eye. rewrite length_tabulate. by apply decoded_in_range.
Qed.

End DecodedPermutation.

(** * Algebra of the gathered identity *)

Section Selection.

Variables (n : nat) (full : list Z).
Hypothesis Hperm : full ≡ₚ Arange n.

Implicit Types (M N : Matrix) (i j k : nat).

Lemma shaped_selection : shaped n n (selection n full).
Proof. apply shaped_tabulate. Qed.

Lemma entry_selection j c :
  (j < n)%nat → (c < n)%nat →
  entry (selection n full) j c
  = if decide (source_row full j = c) then 1%Qc else 0%Qc.
Proof. intros. unfold selection. by rewrite entry_tabulate. Qed.

Lemma entry_transpose_selection i j :
  (i < n)%nat → (j < n)%nat →
  entry (transpose (selection n full)) i j
  = if decide (source_row full j = i) then 1%Qc else 0%Qc.
Proof.
  intros Hi Hj. rewrite (entry_transpose n) by (done || apply shaped_selection).
  by apply entry_selection.
Qed.

(** A left inverse of the gathered identity is its transpose. *)
Lemma left_inverse_selection N :
  shaped n n N → Matmul N (selection n full) = Eye n →
  N = transpose (selection n full).
Proof using Hperm.
  intros HN Hinv.
  apply (matrix_ext n n); [done|apply shaped_transpose, shaped_selection|].
  intros i j Hi Hj. rewrite entry_transpose_selection by done.
  pose proof (source_row_lt n full Hperm j Hj) as Hsj.
  assert (Hentry : entry (Matmul N (selection n full)) i (source_row full j)
                   = entry N i j).
  { rewrite (Matmul_square n) by (done || apply shaped_selection).
    rewrite entry_tabulate by done.
    rewrite (sum_upto_single n _ j Hj).
    - rewrite entry_selection by done. rewrite decide_True by done. ring.
    - intros k Hk Hne. rewrite entry_selection by done.
      rewrite decide_False; [ring|].
      intros Heq. apply Hne. by apply (source_row_inj n full Hperm). }
  rewrite <- Hentry, Hinv, entry_Eye by done.
  repeat case_decide; congruence.
Qed.

(** The product with the gathered identity gathers the rows. *)
Lemma Matmul_selection M :
  shaped n n M → Matmul (selection n full) M = gather_rows M full.
Proof using Hperm.
  intros HM. rewrite (gather_rows_tabulate n n) by done.
  rewrite (Matmul_square n) by (done || apply shaped_selection).
  apply tabulate_ext. intros j c Hj Hc.
  pose proof (source_row_lt n full Hperm j Hj) as Hsj.
  rewrite (sum_upto_single n _ (source_row full j) Hsj).
  - rewrite entry_selection by done. rewrite decide_True by done. ring.
  - intros k Hk Hne. rewrite entry_selection by done.
    rewrite decide_False by done. ring.
Qed.

Lemma shaped_gather_rows M : shaped n n M → shaped n n (gather_rows M full).
Proof using Hperm.
  intros HM. rewrite (gather_rows_tabulate n n) by done. apply shaped_tabulate.
Qed.

(** The product with the transpose puts the gathered rows back. *)
Lemma Matmul_transpose_selection_gather M :
  shaped n n M →
  Matmul (transpose (selection n full)) (gather_rows M full) = M.
Proof using Hperm.
  intros HM.
  apply (matrix_ext n n); [|done|].
  { rewrite (Matmul_square n);
      [apply shaped_tabulate|apply shaped_transpose, shaped_selection
      |by apply shaped_gather_rows]. }
  intros i c Hi Hc.
  rewrite (Matmul_square n)
    by (by apply shaped_gather_rows || apply shaped_transpose, shaped_selection).
  rewrite entry_tabulate by done.
  destruct (source_row_surj n full Hperm i Hi) as (j & Hj & Hji).
  rewrite (sum_upto_single n _ j Hj).
  - rewrite entry_transpose_selection by done. rewrite decide_True by done.
    rewrite (gather_rows_tabulate n n), entry_tabulate by done.
    rewrite Hji. ring.
  - intros k Hk Hne. rewrite entry_transpose_selection by done.
    rewrite decide_False; [ring|].
    intros Heq. apply Hne. apply (source_row_inj n full Hperm); congruence.
Qed.

(** The transpose is a two-sided inverse: the contract of [Inverse] can be
    met on every gathered identity. *)
Lemma is_inverse_transpose_selection :
  is_inverse n (selection n full) (transpose (selection n full)).
Proof using Hperm.
  split; [apply shaped_transpose, shaped_selection|]. split.
  - rewrite <- (Matmul_transpose_selection_gather (Eye n))
      by apply shaped_tabulate.
    f_equal. pose proof (gathered_identity_selection n full Hperm) as H.
    rewrite IndexGet_Some in H; [by injection H|].
    unfold Eye. rewrite length_tabulate. by apply decoded_in_range.
  - rewrite Matmul_selection by apply shaped_transpose, shaped_selection.
    rewrite (gather_rows_tabulate n n)
      by (done || apply shaped_transpose, shaped_selection).
    apply tabulate_ext. intros j c Hj Hc.
    pose proof (source_row_lt n full Hperm j Hj) as Hsj.
    rewrite entry_transpose_selection by done.
    destruct (decide (j = c)) as [->|Hne].
    + by rewrite decide_True.
    + rewrite decide_False; [done|].
      intros Heq. apply Hne. symmetry.
      by apply (source_row_inj n full Hperm).
Qed.

Lemma permutation_matrix_transpose_selection :
  permutation_matrix n (transpose (selection n full)).
Proof using Hperm.
  split; [apply shaped_transpose, shaped_selection|]. split.
  - apply Forall_below. intros i Hi. apply one_hot_below.
    destruct (source_row_surj n full Hperm i Hi) as (j & Hj & Hji).
    exists j. split; [done|]. split.
    + rewrite entry_transpose_selection by done. by rewrite decide_True.
    + intros j' Hj' Hne. rewrite entry_transpose_selection by done.
      rewrite decide_False; [done|].
      intros Heq. apply Hne. apply (source_row_inj n full Hperm); congruence.
  - apply Forall_below. intros j Hj. apply one_hot_below.
    pose proof (source_row_lt n full Hperm j Hj) as Hsj.
    exists (source_row full j). split; [done|]. split.
    + rewrite entry_transpose_selection by done. by rewrite decide_True.
    + intros i' Hi' Hne. rewrite entry_transpose_selection by done.
      by rewrite decide_False.
Qed.

End Selection.

(** * The row exchanges against the decoder *)

Section Exchange.

Lemma swap_entries_fmap {A B} (f : A → B) (d : A) (d' : B) (l : list A) a b :
  (a < length l)%nat → (b < length l)%nat →
  swap_entries d' (f <$> l) a b = f <$> swap_entries d l a b.
Proof.
  intros Ha Hb. unfold swap_entries. rewrite length_fmap, <- list_fmap_compose.
  apply list_fmap_ext. intros idx k Hk. apply lookup_seq in Hk as [-> Hk].
  simpl in *.
  assert (Hnth : ∀ m, (m < length l)%nat → nth m (f <$> l) d' = f (nth m l d)).
  { intros m Hm. destruct (lookup_lt_is_Some_2 l m Hm) as [x Hx].
    rewrite (nth_lookup_Some _ _ d _ Hx).
    apply nth_lookup_Some with (i := m). by rewrite list_lookup_fmap, Hx. }
  repeat case_decide; by apply Hnth.
Qed.

Lemma replay_from_fmap {A B} (f : A → B) (d : A) (d' : B) pivots :
  ∀ i (l : list A),
  Forall (λ p : Z, (1 ≤ p ≤ Z.of_nat (length l))%Z) pivots →
  (i + length pivots ≤ length l)%nat →
  replay_from d' i pivots (f <$> l) = f <$> replay_from d i pivots l.
Proof.
  induction pivots as [|p rest IH]; intros i l Hall Hle; [done|].
  apply Forall_cons in Hall as [Hp Hrest]. simpl in *.
  rewrite (swap_entries_fmap f d d') by lia.
  apply IH; rewrite length_swap_entries; [done|lia].
Qed.

Lemma gather_rows_Arange n c (A : Matrix) :
  shaped n c A → gather_rows A (Arange n) = A.
Proof.
  intros [Hlen _]. unfold gather_rows, Arange. rewrite <- list_fmap_compose.
  apply list_eq. intros i. rewrite list_lookup_fmap.
  destruct (decide (i < n)%nat) as [Hi|Hi].
  - rewrite lookup_seq_lt by done. simpl. rewrite Nat2Z.id.
    destruct (lookup_lt_is_Some_2 A i) as [row Hrow]; [lia|].
    rewrite Hrow. f_equal. by apply nth_lookup_Some.
  - rewrite lookup_seq_ge by lia. symmetry. apply lookup_ge_None_2. lia.
Qed.

(** Exchanging the rows of [A] as the pivot array records gathers the rows
    of [A] by the decoded index vector. *)
Lemma exchange_rows_gather n c (A : Matrix) ipiv :
  shaped n c A → valid_pivots n ipiv →
  exchange_rows ipiv A = gather_rows A (decode_spec ipiv n).
Proof.
  intros HA [Hlen Hall]. unfold exchange_rows, decode_spec, gather_rows.
  rewrite <- (replay_from_fmap _ 0%Z []).
  - f_equal. symmetry. by apply (gather_rows_Arange n c).
  - by rewrite length_fmap, length_seq.
  - rewrite length_fmap, length_seq. lia.
Qed.

End Exchange.

(** * The driver *)

Section Store.

Implicit Types (st : State) (A t : Tensor) (mem : gmap positive Blob).

(** *** The store only grows *)

Lemma extends_refl mem : extends mem mem.
Proof. by intros l Hl. Qed.

Lemma extends_trans mem1 mem2 mem3 :
  extends mem1 mem2 → extends mem2 mem3 → extends mem1 mem3.
Proof.
  intros H12 H23 l Hl. destruct (H12 l Hl) as [Hl2 Heq2].
  destruct (H23 l Hl2) as [Hl3 Heq3]. split; [done|congruence].
Qed.

Lemma extends_fresh mem b : extends mem (<[fresh (dom mem) := b]> mem).
Proof.
  intros l Hl. split; [rewrite dom_insert_L; set_solver|].
  apply lookup_insert_ne. intros <-. by apply (is_fresh (dom mem)).
Qed.

(** Writing to a blob that [mem] does not have. *)
Lemma extends_write mem mem' l b :
  extends mem mem' → l ∉ dom mem → extends mem (<[l := b]> mem').
Proof.
  intros Hext Hl k Hk. destruct (Hext k Hk) as [Hk' Heq].
  split; [rewrite dom_insert_L; apply elem_of_union; by right|].
  rewrite lookup_insert_ne; [done|]. by intros <-.
Qed.

Lemma fresh_not_in_extended mem mem' :
  extends mem mem' → fresh (dom mem') ∉ dom mem.
Proof.
  intros Hext Hin. destruct (Hext _ Hin) as [Hin' _].
  by apply (is_fresh (dom mem')).
Qed.

(** *** Running the monad, one statement at a time *)

Lemma run_bind {X Y} (m : M X) (f : X → M Y) st :
  (m ≫= f) st
  = match m st with
    | (inl e, st') => (inl e, st')
    | (inr x, st') => f x st'
    end.
Proof. done. Qed.

Lemma run_ret {X} (x : X) st : (mret x : M X) st = (inr x, st).
Proof. done. Qed.

Lemma run_LogError {X} e st : (LogError e : M X) st = (inl e, st).
Proof. done. Qed.

Lemma run_LogInfo message st :
  LogInfo message st
  = (inr (), mkState (st_memory st) (st_ipiv st) (st_output st)
                     (st_events st ++ [Info message])).
Proof. done. Qed.

Lemma run_get_memory st : get_memory st = (inr (st_memory st), st).
Proof. done. Qed.

Lemma run_get_output st : get_output st = (inr (st_output st), st).
Proof. done. Qed.

Lemma run_get_ipiv st : get_ipiv st = (inr (st_ipiv st), st).
Proof. done. Qed.

Lemma run_set_output t st :
  set_output t st
  = (inr (), mkState (st_memory st) (st_ipiv st) t (st_events st)).
Proof. done. Qed.

Lemma run_set_ipiv t st :
  set_ipiv t st
  = (inr (), mkState (st_memory st) t (st_output st) (st_events st)).
Proof. done. Qed.

Lemma run_Clone t st :
  Clone t st
  = (inr (mkTensor (shape_ t) (default_strides (shape_ t))
                   (fresh (dom (st_memory st))) (dtype_ t) (device_ t)),
     mkState (<[fresh (dom (st_memory st)) :=
                gather_blob (default (FloatBlob []) (st_memory st !! blob_ t))
                            (offsets (shape_ t) (strides_ t))]> (st_memory st))
             (st_ipiv st) (st_output st) (st_events st)).
Proof. done. Qed.

Lemma run_Empty shape dtype device st :
  Empty shape dtype device st
  = (inr (mkTensor shape (default_strides shape) (fresh (dom (st_memory st)))
                   dtype device),
     mkState (<[fresh (dom (st_memory st)) := Empty_blob shape dtype]>
                (st_memory st))
             (st_ipiv st) (st_output st) (st_events st)).
Proof. done. Qed.

Lemma run_run_kernel kernel call A_data ipiv_data n dtype device st :
  run_kernel kernel call A_data ipiv_data n dtype device st
  = (inr (),
     mkState
       (<[ipiv_data :=
          IntBlob (kernel (float_data (st_memory st) A_data) n dtype device).2]>
        (<[A_data :=
           FloatBlob (kernel (float_data (st_memory st) A_data) n dtype device).1]>
         (st_memory st)))
       (st_ipiv st) (st_output st) (st_events st ++ [call])).
Proof. done. Qed.

End Store.

Ltac run_primitive :=
  first [ rewrite run_ret | rewrite run_LogError | rewrite run_LogInfo
        | rewrite run_get_memory | rewrite run_get_output
        | rewrite run_get_ipiv | rewrite run_set_output
        | rewrite run_set_ipiv | rewrite run_Clone | rewrite run_Empty
        | rewrite run_run_kernel ].

Ltac run_step :=
  first [ rewrite run_bind; run_primitive | run_primitive ];
  cbv beta iota;
  cbn [st_memory st_ipiv st_output st_events GetDataPtr
       shape_ strides_ blob_ dtype_ device_].

Section DriverFacts.

Variable LUCPU LUCUDA : list Qc → nat → Dtype → Device → list Qc * list Z.
Variable BUILD_CUDA_MODULE : bool.
Variable sizeof_OPEN3D_CPU_LINALG_INT : Z.

Implicit Types (st : State) (A t : Tensor) (mem : gmap positive Blob).

(** [Contiguous] keeps the tensors of the state and the events, and only
    extends the store. *)
Lemma Contiguous_extends t st :
  ∃ t' mem',
    Contiguous t st
    = (inr t', mkState mem' (st_ipiv st) (st_output st) (st_events st))
    ∧ extends (st_memory st) mem'.
Proof.
  unfold Contiguous. case_decide.
  - exists t, (st_memory st). split; [by destruct st|apply extends_refl].
  - rewrite run_Clone. do 2 eexists. split; [done|apply extends_fresh].
Qed.

(** Whatever the input and whatever the outcome, the store after the call
    extends the store before it: the call writes to new blobs only. *)
Lemma LU_with_ipiv_extends A st :
  extends (st_memory st)
    (st_memory (LU_with_ipiv LUCPU LUCUDA BUILD_CUDA_MODULE
                             sizeof_OPEN3D_CPU_LINALG_INT A st).2).
Proof.
  unfold LU_with_ipiv.
  destruct (decide (dtype_ A ≠ Float32 ∧ dtype_ A ≠ Float64));
    [apply extends_refl|].
  destruct (decide (length (shape_ A) ≠ 2%nat)); [apply extends_refl|].
  destruct (decide (nth 0 (shape_ A) 0%nat ≠ nth 1 (shape_ A) 0%nat));
    [apply extends_refl|].
  destruct (decide (nth 0 (shape_ A) 0%nat = 0%nat)); [apply extends_refl|].
  do 6 run_step.
  set (mem0 := st_memory st).
  set (l1 := fresh (dom mem0)).
  set (mem1 := <[l1 := _]> mem0).
  assert (H01 : extends mem0 mem1) by apply extends_fresh.
  assert (Hl1 : l1 ∉ dom mem0) by apply is_fresh.
  destruct (decide (device_type (device_ A) = CUDA)).
  - destruct BUILD_CUDA_MODULE.
    + rewrite run_bind. do 4 run_step.
      set (l2 := fresh (dom mem1)).
      assert (Hl2 : l2 ∉ dom mem0) by by apply fresh_not_in_extended.
      rewrite run_bind.
      match goal with |- context [Contiguous ?t ?s] =>
        destruct (Contiguous_extends t s) as (t' & mem' & -> & Hext) end.
      cbn [st_memory] in Hext. run_step. cbn.
      eapply extends_trans; [|exact Hext].
      do 2 (apply extends_write; [|done]).
      eapply extends_trans; [exact H01|apply extends_fresh].
    + do 2 run_step. rewrite run_bind.
      match goal with |- context [Contiguous ?t ?s] =>
        destruct (Contiguous_extends t s) as (t' & mem' & -> & Hext) end.
      cbn [st_memory] in Hext. run_step. cbn.
      by eapply extends_trans.
  - rewrite run_bind, run_bind.
    assert (Hrest : ∀ ipiv_dtype st1,
      st_memory st1 = mem1 →
      extends mem0 (st_memory
        (match (Empty [nth 0 (shape_ A) 0%nat] ipiv_dtype (device_ A) ≫= λ ipiv,
                set_ipiv ipiv;;
                run_kernel LUCPU
                  (CallLUCPU (nth 0 (shape_ A) 0%nat) (dtype_ A) (device_ A))
                  l1 (GetDataPtr ipiv) (nth 0 (shape_ A) 0%nat)
                  (dtype_ A) (device_ A)) st1
         with
         | (inl e, st') => (inl e, st')
         | (inr _, st') =>
             (get_output ≫= λ output,
              Contiguous (T output) ≫= λ output, set_output output) st'
         end).2)).
    { intros ipiv_dtype st1 Hst1. do 3 run_step. rewrite Hst1.
      set (l2 := fresh (dom mem1)).
      assert (Hl2 : l2 ∉ dom mem0) by by apply fresh_not_in_extended.
      run_step. rewrite run_bind.
      match goal with |- context [Contiguous ?t ?s] =>
        destruct (Contiguous_extends t s) as (t' & mem' & -> & Hext) end.
      cbn [st_memory] in Hext. run_step. cbn.
      eapply extends_trans; [|exact Hext].
      do 2 (apply extends_write; [|done]).
      eapply extends_trans; [exact H01|apply extends_fresh]. }
    destruct (decide (sizeof_OPEN3D_CPU_LINALG_INT = 4%Z)).
    + rewrite run_ret. cbv beta iota. by apply Hrest.
    + destruct (decide (sizeof_OPEN3D_CPU_LINALG_INT = 8%Z)).
      * rewrite run_ret. cbv beta iota. by apply Hrest.
      * rewrite run_LogError. cbv beta iota. cbn. exact H01.
Qed.


(** *** Layout *)

Lemma offsets_vector n s : offsets [n] [s] = (λ i, (i * s + 0)%nat) <$> seq 0 n.
Proof.
  cbn [offsets]. generalize (seq 0 n) as l. intros l.
  induction l as [|i l IH]; [done|].
  rewrite bind_cons, IH. done.
Qed.

Lemma gather_vector {X} (d : X) (l : list X) :
  gather d l (offsets [length l] [1%nat]) = l.
Proof.
  rewrite offsets_vector. unfold gather. rewrite <- list_fmap_compose.
  apply list_eq. intros i. rewrite list_lookup_fmap.
  destruct (decide (i < length l)%nat) as [Hi|Hi].
  - rewrite lookup_seq_lt by done. simpl.
    replace (i * 1 + 0)%nat with i by lia.
    destruct (lookup_lt_is_Some_2 l i Hi) as [x Hx]. rewrite Hx. f_equal.
    by apply nth_lookup_Some.
  - rewrite lookup_seq_ge by lia. symmetry. apply lookup_ge_None_2. lia.
Qed.

Lemma gather_offsets_matrix raw r c s0 s1 :
  gather 0%Qc raw (offsets [r; c] [s0; s1])
  = mjoin (tabulate r c (λ i j, nth (i * s0 + j * s1) raw 0%Qc)).
Proof.
  change (offsets [r; c] [s0; s1])
    with (seq 0 r ≫= λ i, (λ o, (i * s0 + o)%nat) <$> offsets [c] [s1]).
  rewrite offsets_vector. unfold gather, tabulate.
  generalize (seq 0 r) as l. intros l.
  induction l as [|i l IH]; [done|].
  rewrite bind_cons, fmap_app, IH, fmap_cons. cbn [mjoin list_join].
  f_equal. rewrite <- !list_fmap_compose. apply list_fmap_ext.
  intros _ j _. simpl. f_equal. lia.
Qed.

Lemma nth_join_tabulate r c f i j :
  (i < r)%nat → (j < c)%nat →
  nth (i * c + j) (mjoin (tabulate r c f)) 0%Qc = f i j.
Proof.
  intros Hi Hj. apply nth_lookup_Some.
  apply (join_lookup_Some_same_length' c); [|done|].
  - apply (shaped_tabulate r c f).
  - exists (f i <$> seq 0 c). unfold tabulate.
    rewrite !list_lookup_fmap, !lookup_seq_lt by done. done.
Qed.

Lemma column_major_join_transpose n M :
  shaped n n M → column_major n (mjoin (transpose M)) = M.
Proof.
  intros HM. unfold column_major.
  transitivity (tabulate n n (entry M)); [|by apply tabulate_entry].
  apply tabulate_ext. intros i j Hi Hj.
  unfold transpose. rewrite (ncols_square n M HM), (proj1 HM).
  by rewrite nth_join_tabulate.
Qed.

(** *** The validation *)

Lemma spec_validation_Some A st e :
  spec_validation (dtype_ A) (shape_ A) = Some e →
  LU_with_ipiv LUCPU LUCUDA BUILD_CUDA_MODULE sizeof_OPEN3D_CPU_LINALG_INT A st
  = (inl e, st).
Proof.
  intros Hspec. unfold LU_with_ipiv, spec_validation in *.
  destruct (decide (dtype_ A ≠ Float32 ∧ dtype_ A ≠ Float64)) as [[H1 H2]|Hd].
  { run_step. destruct (dtype_ A); congruence. }
  assert (Hfloat : dtype_ A = Float32 ∨ dtype_ A = Float64).
  { destruct (dtype_ A); auto; exfalso; apply Hd; split; discriminate. }
  run_step.
  assert (Hshape : match shape_ A with
                   | [rows; cols] =>
                       if decide (rows = cols) then
                         if decide (rows = 0%nat) then Some EmptyDimension
                         else None
                       else Some (NotSquare rows cols)
                   | _ => Some (InvalidRank (length (shape_ A)))
                   end = Some e).
  { by destruct Hfloat as [Hf|Hf]; rewrite Hf in Hspec. }
  clear Hspec.
  destruct (decide (length (shape_ A) ≠ 2%nat)) as [Hlen|Hlen].
  { run_step.
    destruct (shape_ A) as [|rows [|cols [|extra rest]]]; simpl in *; congruence. }
  run_step.
  destruct (shape_ A) as [|rows [|cols [|extra rest]]];
    try (exfalso; apply Hlen; discriminate).
  cbn [nth] in *.
  destruct (decide (rows = cols)) as [->|Hne].
  - destruct (decide (cols ≠ cols)) as [?|_]; [done|]. run_step.
    destruct (decide (cols = 0%nat)); [|done]. run_step. congruence.
  - destruct (decide (rows ≠ cols)) as [_|?]; [|done]. run_step. congruence.
Qed.

(** An input that passes the four checks fails, if at all, on the width of
    the host pivot integer. *)
Lemma spec_validation_None A st :
  spec_validation (dtype_ A) (shape_ A) = None →
  (LU_with_ipiv LUCPU LUCUDA BUILD_CUDA_MODULE sizeof_OPEN3D_CPU_LINALG_INT
                A st).1 = inr ()
  ∨ (LU_with_ipiv LUCPU LUCUDA BUILD_CUDA_MODULE sizeof_OPEN3D_CPU_LINALG_INT
                  A st).1 = inl UnsupportedIntegerWidth.
Proof.
  intros Hspec.
  assert (Hchecks : ¬ (dtype_ A ≠ Float32 ∧ dtype_ A ≠ Float64)
                    ∧ ¬ length (shape_ A) ≠ 2%nat
                    ∧ ¬ nth 0 (shape_ A) 0%nat ≠ nth 1 (shape_ A) 0%nat
                    ∧ nth 0 (shape_ A) 0%nat ≠ 0%nat).
  { unfold spec_validation in Hspec.
    destruct (dtype_ A); try done;
      (destruct (shape_ A) as [|rows [|cols [|extra rest]]]; try done;
       destruct (decide (rows = cols)) as [->|?]; try done;
       destruct (decide (cols = 0%nat)); try done; simpl;
       split_and!; try done; try (by intros H; apply H); by intros [? ?]). }
  destruct Hchecks as (Hc1 & Hc2 & Hc3 & Hc4).
  unfold LU_with_ipiv.
  destruct (decide (dtype_ A ≠ Float32 ∧ dtype_ A ≠ Float64)) as [?|_];
    [done|].
  destruct (decide (length (shape_ A) ≠ 2%nat)) as [?|_]; [done|].
  destruct (decide (nth 0 (shape_ A) 0%nat ≠ nth 1 (shape_ A) 0%nat))
    as [?|_]; [done|].
  destruct (decide (nth 0 (shape_ A) 0%nat = 0%nat)) as [?|_]; [done|].
  do 6 run_step.
  assert (Hrest : ∀ (block : M unit) st1,
    (∃ st2, block st1 = (inr (), st2)) →
    (match block st1 with
     | (inl e, st') => (inl e, st')
     | (inr _, st') =>
         (get_output ≫= λ output,
          Contiguous (T output) ≫= λ output, set_output output) st'
     end).1 = inr ()).
  { intros block st1 [st2 ->]. run_step. rewrite run_bind.
    match goal with |- context [Contiguous ?t ?s] =>
      destruct (Contiguous_extends t s) as (t' & mem' & -> & _) end.
    by run_step. }
  destruct (decide (device_type (device_ A) = CUDA)).
  - left. rewrite run_bind. apply Hrest. destruct BUILD_CUDA_MODULE.
    + do 3 run_step. by eexists.
    + run_step. by eexists.
  - rewrite run_bind, run_bind.
    destruct (decide (sizeof_OPEN3D_CPU_LINALG_INT = 4%Z)).
    + left. rewrite run_ret. cbv beta iota.
      apply (Hrest (Empty _ _ _ ≫= _)). do 3 run_step. by eexists.
    + destruct (decide (sizeof_OPEN3D_CPU_LINALG_INT = 8%Z)).
      * left. rewrite run_ret. cbv beta iota.
        apply (Hrest (Empty _ _ _ ≫= _)). do 3 run_step. by eexists.
      * right. by rewrite run_LogError.
Qed.

(** *** The last statement: back to row-major *)

Lemma finish_run st n l1 dtype device buf :
  st_output st = mkTensor [n; n] [(n * 1)%nat; 1%nat] l1 dtype device →
  st_memory st !! l1 = Some (FloatBlob buf) →
  ∃ st',
    (get_output ≫= λ output,
     Contiguous (T output) ≫= λ output, set_output output) st
    = (inr (), st')
    ∧ tensor_matrix (st_memory st') (st_output st') = column_major n buf
    ∧ st_ipiv st' = st_ipiv st
    ∧ st_events st' = st_events st
    ∧ extends (st_memory st) (st_memory st')
    ∧ (blob_ (st_output st') = l1 ∨ blob_ (st_output st') ∉ dom (st_memory st)).
Proof.
  intros Hout Hbuf. run_step. rewrite Hout. cbn [T shape_ strides_ blob_].
  rewrite run_bind. unfold Contiguous.
  cbn [shape_ strides_ default_strides foldr].
  destruct (decide ([1%nat; (n * 1)%nat] = [(n * 1)%nat; 1%nat])) as [Heq|Hne].
  - assert (n = 1%nat) as -> by (injection Heq; lia).
    run_step. run_step. eexists. split; [done|].
    cbn [st_memory st_ipiv st_output st_events].
    split_and!; [|done|done|apply extends_refl|by left].
    unfold tensor_matrix, float_data, column_major.
    cbn [shape_ strides_ blob_]. rewrite Hbuf.
    apply tabulate_ext. intros i j Hi Hj. f_equal. lia.
  - run_step. run_step. eexists. split; [done|].
    cbn [st_memory st_ipiv st_output st_events].
    split_and!; [|done|done|apply extends_fresh|right; apply is_fresh].
    unfold tensor_matrix, float_data, column_major.
    cbn [shape_ strides_ blob_ default_strides foldr].
    rewrite lookup_insert_eq, Hbuf. cbn [default from_option id gather_blob].
    rewrite gather_offsets_matrix.
    apply tabulate_ext. intros i j Hi Hj.
    replace (i * (n * 1) + j * 1)%nat with (i * n + j)%nat by lia.
    rewrite nth_join_tabulate by done. f_equal. lia.
Qed.


(** *** The accepted inputs *)

Lemma float_data_insert mem l raw :
  float_data (<[l := FloatBlob raw]> mem) l = raw.
Proof. unfold float_data. by rewrite lookup_insert_eq. Qed.

Lemma float_data_insert_ne mem l l' b :
  l' ≠ l → float_data (<[l' := b]> mem) l = float_data mem l.
Proof. intros. unfold float_data. by rewrite lookup_insert_ne. Qed.

Lemma valid_input_checks mem A n :
  valid_input mem A n →
  ¬ (dtype_ A ≠ Float32 ∧ dtype_ A ≠ Float64)
  ∧ ¬ length (shape_ A) ≠ 2%nat
  ∧ ¬ nth 0 (shape_ A) 0%nat ≠ nth 1 (shape_ A) 0%nat
  ∧ nth 0 (shape_ A) 0%nat = n
  ∧ n ≠ 0%nat.
Proof.
  intros (Hdtype & Hshape & Hn & _). rewrite Hshape. simpl.
  split_and!; [|by intros H; apply H..|done|lia].
  intros [H1 H2]. by destruct Hdtype.
Qed.

Lemma valid_input_matrix mem A n :
  valid_input mem A n → shaped n n (tensor_matrix mem A).
Proof.
  intros (_ & Hshape & _ & Hstrides & _). unfold tensor_matrix.
  rewrite Hshape. destruct (strides_ A) as [|s0 [|s1 [|]]]; try done.
  apply shaped_tabulate.
Qed.

(** The transposed clone holds the column-major layout of the input. *)
Lemma valid_input_clone mem A n :
  valid_input mem A n →
  shape_ (T A) = [n; n] ∧ dtype_ (T A) = dtype_ A ∧ device_ (T A) = device_ A
  ∧ gather_blob (default (FloatBlob []) (mem !! blob_ (T A)))
                (offsets (shape_ (T A)) (strides_ (T A)))
    = FloatBlob (kernel_buffer mem A).
Proof.
  intros (_ & Hshape & Hn & Hstrides & Hblob).
  destruct (mem !! blob_ A) as [[raw|]|] eqn:Hraw; try done.
  unfold T, kernel_buffer, tensor_matrix, float_data. rewrite Hshape.
  destruct (strides_ A) as [|s0 [|s1 [|]]]; try done.
  cbn [shape_ strides_ blob_ dtype_ device_]. rewrite Hraw.
  split_and!; try done. cbn [default from_option id gather_blob].
  rewrite gather_offsets_matrix, transpose_tabulate. do 2 f_equal.
  apply tabulate_ext. intros i j _ _. f_equal. lia.
Qed.

Ltac pass_validation Hchecks :=
  destruct Hchecks as (Hc1 & Hc2 & Hc3 & Hc4 & Hc5);
  unfold LU_with_ipiv;
  destruct (decide (dtype_ _ ≠ Float32 ∧ dtype_ _ ≠ Float64)) as [?|_];
    [done|];
  destruct (decide (length (shape_ _) ≠ 2%nat)) as [?|_]; [done|];
  destruct (decide (nth 0 (shape_ _) 0%nat ≠ nth 1 (shape_ _) 0%nat))
    as [?|_]; [done|];
  rewrite Hc4;
  destruct (decide (_ = 0%nat)) as [?|_]; [done|].

(** The kernel path: the driver returns, [output] holds the combined buffer
    of the kernel read back row-major, [ipiv] holds its pivot array. *)
Lemma driver_factorises A st n kernel call ipiv_dtype :
  valid_input (st_memory st) A n →
  dispatched LUCPU LUCUDA BUILD_CUDA_MODULE sizeof_OPEN3D_CPU_LINALG_INT
             (device_ A) n (dtype_ A) kernel call ipiv_dtype →
  ∃ st',
    LU_with_ipiv LUCPU LUCUDA BUILD_CUDA_MODULE sizeof_OPEN3D_CPU_LINALG_INT
                 A st = (inr (), st')
    ∧ tensor_matrix (st_memory st') (st_output st')
      = column_major n
          (kernel (kernel_buffer (st_memory st) A) n (dtype_ A) (device_ A)).1
    ∧ tensor_ints (st_memory st') (st_ipiv st')
      = gather 0%Z
          (kernel (kernel_buffer (st_memory st) A) n (dtype_ A) (device_ A)).2
          (offsets [n] [1%nat])
    ∧ shape_ (st_ipiv st') = [n]
    ∧ dtype_ (st_ipiv st') = ipiv_dtype
    ∧ st_events st' = st_events st ++ [call].
Proof.
  intros Hvalid Hdisp.
  pose proof (valid_input_checks _ _ _ Hvalid) as Hchecks.
  destruct (valid_input_clone _ _ _ Hvalid) as (HTs & HTd & HTdev & Hclone).
  pass_validation Hchecks.
  do 6 run_step. rewrite Hclone, HTs, HTd, HTdev.
  set (mem0 := st_memory st) in *.
  set (l1 := fresh (dom mem0)).
  set (mem1 := <[l1 := _]> mem0).
  set (l2 := fresh (dom mem1)).
  assert (Hl12 : l2 ≠ l1).
  { intros Heq. apply (is_fresh (dom mem1)). fold l2. rewrite Heq.
    unfold mem1. rewrite dom_insert_L. set_solver. }
  assert (Hfd : float_data mem1 l1 = kernel_buffer mem0 A)
    by apply float_data_insert.
  set (result := kernel (kernel_buffer mem0 A) n (dtype_ A) (device_ A)).
  assert (Hrest : ∀ st1,
    st_memory st1 = mem1 →
    st_output st1 = mkTensor [n; n] (default_strides [n; n]) l1
                             (dtype_ A) (device_ A) →
    st_events st1 = st_events st →
    ∃ st',
      match (Empty [n] ipiv_dtype (device_ A) ≫= λ ipiv,
             set_ipiv ipiv;;
             run_kernel kernel call l1 (GetDataPtr ipiv) n
                        (dtype_ A) (device_ A)) st1
      with
      | (inl e, st') => (inl e, st')
      | (inr _, st') =>
          (get_output ≫= λ output,
           Contiguous (T output) ≫= λ output, set_output output) st'
      end = (inr (), st')
      ∧ tensor_matrix (st_memory st') (st_output st')
        = column_major n result.1
      ∧ tensor_ints (st_memory st') (st_ipiv st')
        = gather 0%Z result.2 (offsets [n] [1%nat])
      ∧ shape_ (st_ipiv st') = [n]
      ∧ dtype_ (st_ipiv st') = ipiv_dtype
      ∧ st_events st' = st_events st ++ [call]).
  { intros st1 Hmem1 Hout1 Hev1. do 3 run_step. rewrite Hmem1. fold l2.
    rewrite float_data_insert_ne by done. rewrite Hfd. fold result.
    match goal with |- context [(get_output ≫= _) ?s] => set (st3 := s) end.
    destruct (finish_run st3 n l1 (dtype_ A) (device_ A) result.1)
      as (st' & Hrun & Hmat & Hipiv & Hev & Hext & _).
    { unfold st3. cbn [st_output]. by rewrite Hout1. }
    { unfold st3. cbn [st_memory].
      rewrite lookup_insert_ne by done. apply lookup_insert_eq. }
    exists st'. split; [exact Hrun|]. rewrite Hipiv, Hev.
    unfold st3 at 2 3 4. cbn [st_ipiv st_events shape_ dtype_].
    split_and!; try done; [|by rewrite Hev1].
    unfold tensor_ints, int_data.
    destruct (Hext l2) as [_ Hl2].
    { unfold st3. cbn [st_memory]. rewrite dom_insert_L.
      apply elem_of_union. left. by apply elem_of_singleton. }
    unfold st3 in Hl2 |- *.
    cbn [st_memory st_ipiv shape_ strides_ blob_ default_strides foldr]
      in Hl2 |- *.
    by rewrite Hl2, lookup_insert_eq. }
  destruct Hdisp as [Hdev Hbuild|Hdev Hsize|Hdev Hsize].
  - destruct (decide (device_type (device_ A) = CUDA)) as [_|?]; [|done].
    rewrite Hbuild. rewrite run_bind. by apply Hrest.
  - destruct (decide (device_type (device_ A) = CUDA)) as [?|_]; [congruence|].
    rewrite run_bind, run_bind.
    destruct (decide (sizeof_OPEN3D_CPU_LINALG_INT = 4%Z)) as [_|?]; [|done].
    rewrite run_ret. cbv beta iota. by apply Hrest.
  - destruct (decide (device_type (device_ A) = CUDA)) as [?|_]; [congruence|].
    rewrite run_bind, run_bind.
    destruct (decide (sizeof_OPEN3D_CPU_LINALG_INT = 4%Z)) as [?|_]; [lia|].
    destruct (decide (sizeof_OPEN3D_CPU_LINALG_INT = 8%Z)) as [_|?]; [|done].
    rewrite run_ret. cbv beta iota. by apply Hrest.
Qed.


(** The degrade path: an accelerator tensor, no accelerator support. *)
Lemma driver_degrades A st n :
  valid_input (st_memory st) A n →
  device_type (device_ A) = CUDA → BUILD_CUDA_MODULE = false →
  ∃ st',
    LU_with_ipiv LUCPU LUCUDA BUILD_CUDA_MODULE sizeof_OPEN3D_CPU_LINALG_INT
                 A st = (inr (), st')
    ∧ tensor_matrix (st_memory st') (st_output st')
      = tensor_matrix (st_memory st) A
    ∧ (blob_ (st_output st') ∉ dom (st_memory st))
    ∧ st_ipiv st' = st_ipiv st
    ∧ st_events st' = (st_events st ++ [Info "Unimplemented device."]).
Proof.
  intros Hvalid Hdev Hbuild.
  pose proof (valid_input_checks _ _ _ Hvalid) as Hchecks.
  pose proof (valid_input_matrix _ _ _ Hvalid) as Hshaped.
  destruct (valid_input_clone _ _ _ Hvalid) as (HTs & HTd & HTdev & Hclone).
  pass_validation Hchecks.
  do 6 run_step. rewrite Hclone, HTs, HTd, HTdev.
  destruct (decide (device_type (device_ A) = CUDA)) as [_|?]; [|done].
  rewrite Hbuild. do 1 run_step.
  set (mem0 := st_memory st) in *.
  set (l1 := fresh (dom mem0)).
  match goal with |- context [(get_output ≫= _) ?s] => set (st3 := s) end.
  destruct (finish_run st3 n l1 (dtype_ A) (device_ A) (kernel_buffer mem0 A))
    as (st' & Hrun & Hmat & Hipiv & Hev & Hext & Hblob).
  { done. }
  { unfold st3. cbn [st_memory]. apply lookup_insert_eq. }
  exists st'. split; [exact Hrun|]. rewrite Hmat, Hipiv, Hev.
  split_and!; try done.
  - by apply column_major_join_transpose.
  - destruct Hblob as [->|Hnew]; [apply is_fresh|].
    intros Hin. apply Hnew. unfold st3. cbn [st_memory].
    rewrite dom_insert_L. apply elem_of_union. by right.
Qed.

(** The host path with a pivot integer of unsupported width. *)
Lemma driver_unsupported_width A st n :
  valid_input (st_memory st) A n →
  device_type (device_ A) = CPU →
  sizeof_OPEN3D_CPU_LINALG_INT ≠ 4%Z → sizeof_OPEN3D_CPU_LINALG_INT ≠ 8%Z →
  ∃ st',
    LU_with_ipiv LUCPU LUCUDA BUILD_CUDA_MODULE sizeof_OPEN3D_CPU_LINALG_INT
                 A st = (inl UnsupportedIntegerWidth, st')
    ∧ st_ipiv st' = st_ipiv st
    ∧ st_events st' = st_events st.
Proof.
  intros Hvalid Hdev H4 H8.
  pose proof (valid_input_checks _ _ _ Hvalid) as Hchecks.
  pass_validation Hchecks.
  do 6 run_step.
  destruct (decide (device_type (device_ A) = CUDA)) as [?|_]; [congruence|].
  rewrite run_bind, run_bind.
  destruct (decide (sizeof_OPEN3D_CPU_LINALG_INT = 4%Z)) as [?|_]; [done|].
  destruct (decide (sizeof_OPEN3D_CPU_LINALG_INT = 8%Z)) as [?|_]; [done|].
  rewrite run_LogError. cbv beta iota. by eexists.
Qed.

Lemma valid_input_extends mem mem' A n :
  extends mem mem' → valid_input mem A n →
  valid_input mem' A n ∧ tensor_matrix mem' A = tensor_matrix mem A.
Proof.
  intros Hext (Hdtype & Hshape & Hn & Hstrides & Hblob).
  destruct (mem !! blob_ A) as [b|] eqn:Hraw; [|done].
  destruct (Hext (blob_ A)) as [_ Heq]; [by apply elem_of_dom|].
  rewrite Hraw in Heq. split.
  - split_and!; try done. by rewrite Heq.
  - unfold tensor_matrix, float_data. by rewrite Heq, Hraw.
Qed.

End DriverFacts.

(** * LU: the driver, then the reconstructor *)

Section LUFacts.

Variable LUCPU LUCUDA : list Qc → nat → Dtype → Device → list Qc * list Z.
Variable BUILD_CUDA_MODULE : bool.
Variable sizeof_OPEN3D_CPU_LINALG_INT : Z.
Variable Inverse : Matrix → option Matrix.

Implicit Types (st : State) (A : Tensor) (mem : gmap positive Blob).

(** The store in which [LU] calls the driver: the store of the caller and
    the blobs of the two default-constructed locals. *)
Lemma LU_run A permute_l mem events :
  ∃ st0,
    extends mem (st_memory st0) ∧ st_events st0 = events
    ∧ LU LUCPU LUCUDA BUILD_CUDA_MODULE sizeof_OPEN3D_CPU_LINALG_INT Inverse
         A permute_l mem events
      = match LU_with_ipiv LUCPU LUCUDA BUILD_CUDA_MODULE
                           sizeof_OPEN3D_CPU_LINALG_INT A st0 with
        | (inl e, st') => (inl e, st')
        | (inr _, st') =>
            (inr (OutputToPLU Inverse
                    (tensor_matrix (st_memory st') (st_output st'))
                    (tensor_ints (st_memory st') (st_ipiv st')) permute_l),
             st')
        end.
Proof.
  unfold LU. rewrite run_bind.
  match goal with |- context [LU_with_ipiv _ _ _ _ _ ?s] => exists s end.
  cbn [st_memory st_events]. split_and!; [|done|].
  - unfold Tensor_default. cbn [fst snd].
    eapply extends_trans; apply extends_fresh.
  - destruct (LU_with_ipiv _ _ _ _ _ _) as [[e|[]] st']; [done|].
    by do 4 run_step.
Qed.

(** [LU] on the kernel path: the reconstructor runs on the combined buffer
    and the pivot array of the kernel. *)
Lemma LU_factorises A n kernel call ipiv_dtype permute_l mem events :
  valid_input mem A n →
  dispatched LUCPU LUCUDA BUILD_CUDA_MODULE sizeof_OPEN3D_CPU_LINALG_INT
             (device_ A) n (dtype_ A) kernel call ipiv_dtype →
  length (kernel (kernel_buffer mem A) n (dtype_ A) (device_ A)).2 = n →
  (LU LUCPU LUCUDA BUILD_CUDA_MODULE sizeof_OPEN3D_CPU_LINALG_INT Inverse
      A permute_l mem events).1
  = inr (OutputToPLU Inverse
           (column_major n
              (kernel (kernel_buffer mem A) n (dtype_ A) (device_ A)).1)
           (kernel (kernel_buffer mem A) n (dtype_ A) (device_ A)).2
           permute_l).
Proof.
  intros Hvalid Hdisp Hlen.
  destruct (LU_run A permute_l mem events) as (st0 & Hext & Hev & ->).
  destruct (valid_input_extends _ _ _ _ Hext Hvalid) as [Hvalid0 Hsame].
  destruct (driver_factorises LUCPU LUCUDA BUILD_CUDA_MODULE
              sizeof_OPEN3D_CPU_LINALG_INT A st0 n kernel call ipiv_dtype
              Hvalid0 Hdisp) as (st' & -> & Hmat & Hints & _).
  cbn [fst]. rewrite Hmat, Hints. unfold kernel_buffer. rewrite Hsame.
  do 2 f_equal. rewrite <- Hlen at 2. apply gather_vector.
Qed.

Lemma LU_extends A permute_l mem events :
  extends mem
    (st_memory (LU LUCPU LUCUDA BUILD_CUDA_MODULE sizeof_OPEN3D_CPU_LINALG_INT
                   Inverse A permute_l mem events).2).
Proof.
  destruct (LU_run A permute_l mem events) as (st0 & Hext & Hev & ->).
  pose proof (LU_with_ipiv_extends LUCPU LUCUDA BUILD_CUDA_MODULE
                sizeof_OPEN3D_CPU_LINALG_INT A st0) as Hdriver.
  destruct (LU_with_ipiv _ _ _ _ _ _) as [[e|[]] st'];
    by eapply extends_trans.
Qed.

Lemma LU_rejects A permute_l mem events e :
  spec_validation (dtype_ A) (shape_ A) = Some e →
  (LU LUCPU LUCUDA BUILD_CUDA_MODULE sizeof_OPEN3D_CPU_LINALG_INT Inverse
      A permute_l mem events).1 = inl e.
Proof.
  intros Hspec.
  destruct (LU_run A permute_l mem events) as (st0 & _ & _ & ->).
  by rewrite (spec_validation_Some _ _ _ _ _ _ _ Hspec).
Qed.

End LUFacts.
(** * The reconstructor *)

Section ReconstructorFacts.

Variable Inverse : Matrix → option Matrix.
Variables (n : nat) (output : Matrix) (ipiv : list Z).
Hypothesis Houtput : shaped n n output.
Hypothesis Hpivots : valid_pivots n ipiv.
Hypothesis Hinverse :
  ∀ G, gathered_identity n ipiv = Some G → Inverse_contract Inverse n G.

Lemma decoded_Permutation : decode_spec ipiv n ≡ₚ Arange n.
Proof using Hpivots.
  apply (GetColPermutation_Permutation ipiv (length ipiv)).
  by apply GetColPermutation_decode.
Qed.

Lemma gathered_identity_decoded :
  gathered_identity n ipiv = Some (selection n (decode_spec ipiv n)).
Proof using Hpivots.
  unfold gathered_identity. rewrite GetColPermutation_decode by done. simpl.
  apply gathered_identity_selection, decoded_Permutation.
Qed.

Lemma Inverse_decoded :
  Inverse (selection n (decode_spec ipiv n))
  = Some (transpose (selection n (decode_spec ipiv n))).
Proof using Hpivots Hinverse.
  destruct (Hinverse _ gathered_identity_decoded) as (N & HN & Hshape & Hleft & _).
  rewrite HN. f_equal.
  by apply left_inverse_selection; [apply decoded_Permutation|..].
Qed.

(** What the reconstructor returns on a valid pivot array. *)
Lemma OutputToPLU_decoded permute_l :
  OutputToPLU Inverse output ipiv permute_l
  = Some (transpose (selection n (decode_spec ipiv n)),
          if permute_l
          then Matmul (transpose (selection n (decode_spec ipiv n)))
                      (unit_lower_part output)
          else unit_lower_part output,
          upper_part output).
Proof using Houtput Hpivots Hinverse.
  unfold OutputToPLU, Thiul. rewrite (proj1 Houtput).
  rewrite GetColPermutation_decode by done. simpl.
  rewrite gathered_identity_selection by apply decoded_Permutation. simpl.
  rewrite Inverse_decoded. done.
Qed.

(** The factorisation, from the contract of the kernel. *)
Lemma reconstruction A :
  shaped n n A →
  exchange_rows ipiv A = Matmul (unit_lower_part output) (upper_part output) →
  A = Matmul (transpose (selection n (decode_spec ipiv n)))
             (Matmul (unit_lower_part output) (upper_part output)).
Proof using Hpivots.
  intros HA Hlu. rewrite <- Hlu, (exchange_rows_gather n n) by done.
  symmetry. by apply Matmul_transpose_selection_gather; [apply decoded_Permutation|].
Qed.

Lemma reconstruction_transposed A :
  shaped n n A →
  exchange_rows ipiv A = Matmul (unit_lower_part output) (upper_part output) →
  Matmul (transpose (transpose (selection n (decode_spec ipiv n)))) A
  = Matmul (unit_lower_part output) (upper_part output).
Proof using Hpivots.
  intros HA Hlu. rewrite (transpose_involutive n) by apply shaped_selection.
  rewrite Matmul_selection by (done || apply decoded_Permutation).
  rewrite <- Hlu. symmetry. by apply (exchange_rows_gather n n).
Qed.

Lemma reconstruction_permuted A :
  shaped n n A →
  exchange_rows ipiv A = Matmul (unit_lower_part output) (upper_part output) →
  A = Matmul (Matmul (transpose (selection n (decode_spec ipiv n)))
                     (unit_lower_part output))
             (upper_part output).
Proof using Houtput Hpivots.
  intros HA Hlu. rewrite (Matmul_assoc n).
  - by apply reconstruction.
  - apply shaped_transpose, shaped_selection.
  - by apply unit_lower_part_triangular.
  - by apply upper_part_triangular.
Qed.

End ReconstructorFacts.

(** * The model at work *)

Example LU_on_dense_matrix :
  (LU getrf_reference getrf_reference true 4 Inverse_reference
      (tensor_on host) false (store_of dense_matrix) []).1
  = inr (Some (cyclic_P, dense_L, dense_U))
  ∧ dense_matrix = Matmul cyclic_P (Matmul dense_L dense_U)
  ∧ st_events (LU getrf_reference getrf_reference true 4 Inverse_reference
                  (tensor_on host) false (store_of dense_matrix) []).2
    = [CallLUCPU 3 Float64 host].
Proof. split_and!; by_evaluation. Qed.

Example getrf_on_dense_matrix :
  getrf_reference (kernel_buffer (store_of dense_matrix) (tensor_on host))
                  3 Float64 host
  = (mjoin (transpose dense_output), dense_ipiv).
Proof. by_evaluation. Qed.

Example GetColPermutation_out_of_range :
  GetColPermutation [2; 4; 3]%Z 3 3 = None
  ∧ GetColPermutation [2; 0; 3]%Z 3 3 = None
  ∧ GetColPermutation [2; 3]%Z 2 3 = None.
Proof. split_and!; reflexivity. Qed.

(** [LU] on the degrade path: the reconstructor reads a pivot array that
    was never assigned, and there is no result. *)
Example LU_on_degrade_path :
  (LU getrf_reference getrf_reference false 4 Inverse_reference
      (tensor_on accelerator) false (store_of dense_matrix) []).1
  = inr None.
Proof. by_evaluation. Qed.

(** * The claims *)

(** C1 (amended).  For a valid square float matrix [A] of [n ≥ 1] rows,
    factorised by a kernel that meets its contract, the triple returned by
    [LU] satisfies [A = P·L·U], equivalently [Pᵀ·A = L·U], when [permute_l]
    is false, with [L] unit lower triangular and [U] upper triangular; when
    [permute_l] is true the returned lower factor is [P·L], with the same
    [P] and [U], and [A = (P·L)·U]. *)
Theorem C1_LU_returns_A_eq_P_L_U
    (LUCPU LUCUDA : list Qc → nat → Dtype → Device → list Qc * list Z)
    (BUILD_CUDA_MODULE : bool) (sizeof_OPEN3D_CPU_LINALG_INT : Z)
    (Inverse : Matrix → option Matrix)
    (mem : gmap positive Blob) (events : list Event) (A : Tensor) (n : nat)
    (kernel : list Qc → nat → Dtype → Device → list Qc * list Z)
    (call : Event) (ipiv_dtype : Dtype) :
  valid_input mem A n →
  dispatched LUCPU LUCUDA BUILD_CUDA_MODULE sizeof_OPEN3D_CPU_LINALG_INT
             (device_ A) n (dtype_ A) kernel call ipiv_dtype →
  getrf_contract n (kernel_buffer mem A)
                 (kernel (kernel_buffer mem A) n (dtype_ A) (device_ A)) →
  (∀ G, gathered_identity n
          (kernel (kernel_buffer mem A) n (dtype_ A) (device_ A)).2 = Some G →
        Inverse_contract Inverse n G) →
  ∃ P L U,
    (LU LUCPU LUCUDA BUILD_CUDA_MODULE sizeof_OPEN3D_CPU_LINALG_INT Inverse
        A false mem events).1 = inr (Some (P, L, U))
    ∧ (LU LUCPU LUCUDA BUILD_CUDA_MODULE sizeof_OPEN3D_CPU_LINALG_INT Inverse
          A true mem events).1 = inr (Some (P, Matmul P L, U))
    ∧ unit_lower_triangular n L
    ∧ upper_triangular n U
    ∧ tensor_matrix mem A = Matmul P (Matmul L U)
    ∧ Matmul (transpose P) (tensor_matrix mem A) = Matmul L U
    ∧ tensor_matrix mem A = Matmul (Matmul P L) U.
Proof.
  intros Hvalid Hdisp (Hlen & Hpivots & Hlu) Hinverse.
  set (result := kernel (kernel_buffer mem A) n (dtype_ A) (device_ A)) in *.
  pose proof (valid_input_matrix _ _ _ Hvalid) as HA.
  unfold kernel_buffer in Hlu.
  rewrite (column_major_join_transpose n _ HA) in Hlu.
  assert (Hout : shaped n n (column_major n result.1)) by apply shaped_tabulate.
  exists (transpose (selection n (decode_spec result.2 n))),
         (unit_lower_part (column_major n result.1)),
         (upper_part (column_major n result.1)).
  split_and!.
  - rewrite (LU_factorises _ _ _ _ _ A n kernel call ipiv_dtype)
      by (done || apply Hpivots).
    f_equal. by apply (OutputToPLU_decoded Inverse n).
  - rewrite (LU_factorises _ _ _ _ _ A n kernel call ipiv_dtype)
      by (done || apply Hpivots).
    f_equal. by apply (OutputToPLU_decoded Inverse n).
  - by apply unit_lower_part_triangular.
  - by apply upper_part_triangular.
  - by apply (reconstruction n).
  - by apply (reconstruction_transposed n).
  - by apply (reconstruction_permuted n).
Qed.

(** The hypotheses of the theorems at concrete inputs: a host tensor on
    [dense_matrix] or [cyclic_matrix], the reference kernel and the
    reference inverse. *)
Lemma dense_getrf_contract :
  getrf_contract 3 (kernel_buffer (store_of dense_matrix) (tensor_on host))
    (getrf_reference (kernel_buffer (store_of dense_matrix) (tensor_on host))
                     3 Float64 host).
Proof. by_evaluation. Defined.

Lemma dense_Inverse_contract G :
  gathered_identity 3
    (getrf_reference (kernel_buffer (store_of dense_matrix) (tensor_on host))
                     3 Float64 host).2 = Some G →
  Inverse_contract Inverse_reference 3 G.
Proof.
  intros HG. vm_compute in HG. injection HG as <-.
  exists cyclic_P. split; by_evaluation.
Defined.

Lemma C1_witness :
  valid_input (store_of dense_matrix) (tensor_on host) 3
  ∧ ∃ P L U,
      (LU getrf_reference getrf_reference true 4 Inverse_reference
          (tensor_on host) false (store_of dense_matrix) []).1
      = inr (Some (P, L, U))
      ∧ (LU getrf_reference getrf_reference true 4 Inverse_reference
            (tensor_on host) true (store_of dense_matrix) []).1
        = inr (Some (P, Matmul P L, U))
      ∧ unit_lower_triangular 3 L
      ∧ upper_triangular 3 U
      ∧ tensor_matrix (store_of dense_matrix) (tensor_on host)
        = Matmul P (Matmul L U)
      ∧ Matmul (transpose P)
               (tensor_matrix (store_of dense_matrix) (tensor_on host))
        = Matmul L U
      ∧ tensor_matrix (store_of dense_matrix) (tensor_on host)
        = Matmul (Matmul P L) U.
Proof.
  split; [by_evaluation|].
  apply (C1_LU_returns_A_eq_P_L_U getrf_reference getrf_reference true 4
           Inverse_reference (store_of dense_matrix) [] (tensor_on host) 3
           getrf_reference (CallLUCPU 3 Float64 host) Int32).
  - by_evaluation.
  - by apply dispatched_host_32.
  - apply dense_getrf_contract.
  - apply dense_Inverse_contract.
Defined.

(** C1, as stated, fails.  For [cyclic_matrix], whose pivoting is a 3-cycle,
    [LU] returns [cyclic_P], the identity and [cyclic_U] when [permute_l] is
    false: the product [P·A] differs from [L·U] (while [A = P·L·U]).  When
    [permute_l] is true the returned lower factor is [P], which is not
    lower triangular. *)
Lemma C1_counterexample :
  valid_input (store_of cyclic_matrix) (tensor_on host) 3
  ∧ getrf_contract 3
      (kernel_buffer (store_of cyclic_matrix) (tensor_on host))
      (getrf_reference (kernel_buffer (store_of cyclic_matrix) (tensor_on host))
                       3 Float64 host)
  ∧ tensor_matrix (store_of cyclic_matrix) (tensor_on host) = cyclic_matrix
  ∧ (getrf_reference (kernel_buffer (store_of cyclic_matrix) (tensor_on host))
                     3 Float64 host).2 = [3; 3; 3]%Z
  ∧ GetColPermutation [3; 3; 3]%Z 3 3 = Some [2; 0; 1]%Z
  ∧ IndexGet (Eye 3) [2; 0; 1]%Z = Some (transpose cyclic_P)
  ∧ Inverse_reference (transpose cyclic_P) = Some cyclic_P
  ∧ is_inverse 3 (transpose cyclic_P) cyclic_P
  ∧ (LU getrf_reference getrf_reference true 4 Inverse_reference
        (tensor_on host) false (store_of cyclic_matrix) []).1
    = inr (Some (cyclic_P, cyclic_L, cyclic_U))
  ∧ Matmul cyclic_P cyclic_matrix ≠ Matmul cyclic_L cyclic_U
  ∧ cyclic_matrix = Matmul cyclic_P (Matmul cyclic_L cyclic_U)
  ∧ (LU getrf_reference getrf_reference true 4 Inverse_reference
        (tensor_on host) true (store_of cyclic_matrix) []).1
    = inr (Some (cyclic_P, cyclic_P, cyclic_U))
  ∧ ¬ unit_lower_triangular 3 cyclic_P
  ∧ permutation_matrix 3 cyclic_P.
Proof.
  split_and!; by_evaluation.
Qed.

(** C2.  For a pivot array of length [n] with entries in [1..n], the decoder
    returns what the in-order replay of the swap log gives: it starts from
    the identity and swaps [full[i]] with [full[pivotArray[i] - 1]] for
    [i = 0 .. n-1] in increasing order.  On the pivot array [2,2,3] this is
    [1,0,2], and not the independent per-index lookup [1,1,2]. *)
Theorem C2_decoder_replays_swaps_in_order (ipiv : list Z) (n : nat) :
  valid_pivots n ipiv →
  GetColPermutation ipiv (length ipiv) n = Some (decode_spec ipiv n)
  ∧ GetColPermutation [2; 2; 3] 3 3
    = Some (swap_entries 0 (swap_entries 0 (swap_entries 0 [0; 1; 2] 0 1) 1 1) 2 2)
  ∧ GetColPermutation [2; 2; 3] 3 3 = Some [1; 0; 2]
  ∧ GetColPermutation [2; 2; 3] 3 3 ≠ Some (independent_lookup [2; 2; 3]).
Proof.
  intros Hvalid. split; [by apply GetColPermutation_decode|].
  repeat split; try reflexivity. vm_compute. discriminate.
Qed.

Lemma C2_witness :
  valid_pivots 3 [3; 3; 3]
  ∧ GetColPermutation [3; 3; 3] 3 3 = Some [2; 0; 1].
Proof.
  assert (Hv : valid_pivots 3 [3; 3; 3]).
  { split; [reflexivity|]. repeat constructor; lia. }
  split; [exact Hv|].
  exact (proj1 (C2_decoder_replays_swaps_in_order [3; 3; 3] 3 Hv)).
Defined.

(** C3.  The reconstructor gathers the rows of the identity by the decoded
    index vector and inverts the gathered matrix.  For every permutation
    index vector the inverse of the gathered matrix is its transpose, and
    the returned [P] satisfies [A = P·L·U], equivalently [Pᵀ·A = L·U]. *)
Theorem C3_inverse_of_gathered_identity_is_transpose
    (Inverse : Matrix → option Matrix) (n : nat)
    (A output : Matrix) (ipiv : list Z) :
  shaped n n A →
  shaped n n output →
  valid_pivots n ipiv →
  exchange_rows ipiv A = Matmul (unit_lower_part output) (upper_part output) →
  (∀ G, gathered_identity n ipiv = Some G → Inverse_contract Inverse n G) →
  (∀ full, full ≡ₚ Arange n →
     ∃ G, IndexGet (Eye n) full = Some G
          ∧ ∀ N, is_inverse n G N → N = transpose G)
  ∧ ∃ full G P L U,
      GetColPermutation ipiv (length ipiv) n = Some full
      ∧ IndexGet (Eye n) full = Some G
      ∧ Inverse G = Some P
      ∧ P = transpose G
      ∧ OutputToPLU Inverse output ipiv false = Some (P, L, U)
      ∧ A = Matmul P (Matmul L U)
      ∧ Matmul (transpose P) A = Matmul L U.
Proof.
  intros HA Hout Hpivots Hlu Hinverse. split.
  - intros full Hperm. exists (selection n full).
    split; [by apply gathered_identity_selection|].
    intros N (HN & Hleft & _). by apply left_inverse_selection.
  - exists (decode_spec ipiv n), (selection n (decode_spec ipiv n)),
           (transpose (selection n (decode_spec ipiv n))),
           (unit_lower_part output), (upper_part output).
    split_and!.
    + by apply GetColPermutation_decode.
    + by apply gathered_identity_selection, decoded_Permutation.
    + by apply Inverse_decoded.
    + done.
    + by apply (OutputToPLU_decoded Inverse n).
    + by apply (reconstruction n).
    + by apply (reconstruction_transposed n).
Qed.

Lemma C3_witness :
  exchange_rows dense_ipiv dense_matrix
  = Matmul (unit_lower_part dense_output) (upper_part dense_output)
  ∧ ∃ full G P L U,
      GetColPermutation dense_ipiv (length dense_ipiv) 3 = Some full
      ∧ IndexGet (Eye 3) full = Some G
      ∧ Inverse_reference G = Some P
      ∧ P = transpose G
      ∧ OutputToPLU Inverse_reference dense_output dense_ipiv false
        = Some (P, L, U)
      ∧ dense_matrix = Matmul P (Matmul L U)
      ∧ Matmul (transpose P) dense_matrix = Matmul L U.
Proof.
  assert (Hlu : exchange_rows dense_ipiv dense_matrix
                = Matmul (unit_lower_part dense_output) (upper_part dense_output))
    by by_evaluation.
  split; [exact Hlu|].
  apply (C3_inverse_of_gathered_identity_is_transpose
           Inverse_reference 3 dense_matrix dense_output dense_ipiv).
  - by_evaluation.
  - by_evaluation.
  - by_evaluation.
  - exact Hlu.
  - intros G HG. vm_compute in HG. injection HG as <-.
    exists cyclic_P. split; by_evaluation.
Defined.

(** C4.  The driver checks, in this order, that the element type is Float32
    or Float64 (else UnsupportedDtype), that the rank is 2 (else
    InvalidRank), that the two dimensions are equal (else NotSquare) and
    that the dimension is not zero (else EmptyDimension); the first check
    that fails raises, in [LU_with_ipiv] and in [LU], and leaves the state
    as it was.  A 3×4 input raises NotSquare, a 1-D input InvalidRank, an
    integer input UnsupportedDtype, a 0×0 input EmptyDimension. *)
Theorem C4_validation_order
    (LUCPU LUCUDA : list Qc → nat → Dtype → Device → list Qc * list Z)
    (BUILD_CUDA_MODULE : bool) (sizeof_OPEN3D_CPU_LINALG_INT : Z)
    (Inverse : Matrix → option Matrix)
    (A : Tensor) (st : State) (permute_l : bool)
    (strides : list nat) (blob : positive) (device : Device) :
  match spec_validation (dtype_ A) (shape_ A) with
  | Some e =>
      LU_with_ipiv LUCPU LUCUDA BUILD_CUDA_MODULE sizeof_OPEN3D_CPU_LINALG_INT
                   A st = (inl e, st)
      ∧ (LU LUCPU LUCUDA BUILD_CUDA_MODULE sizeof_OPEN3D_CPU_LINALG_INT Inverse
            A permute_l (st_memory st) (st_events st)).1 = inl e
  | None =>
      (LU_with_ipiv LUCPU LUCUDA BUILD_CUDA_MODULE sizeof_OPEN3D_CPU_LINALG_INT
                    A st).1 = inr ()
      ∨ (LU_with_ipiv LUCPU LUCUDA BUILD_CUDA_MODULE
                      sizeof_OPEN3D_CPU_LINALG_INT A st).1
        = inl UnsupportedIntegerWidth
  end
  ∧ LU_with_ipiv LUCPU LUCUDA BUILD_CUDA_MODULE sizeof_OPEN3D_CPU_LINALG_INT
                 (mkTensor [3; 4]%nat strides blob Float32 device) st
    = (inl (NotSquare 3 4), st)
  ∧ LU_with_ipiv LUCPU LUCUDA BUILD_CUDA_MODULE sizeof_OPEN3D_CPU_LINALG_INT
                 (mkTensor [5]%nat strides blob Float64 device) st
    = (inl (InvalidRank 1), st)
  ∧ LU_with_ipiv LUCPU LUCUDA BUILD_CUDA_MODULE sizeof_OPEN3D_CPU_LINALG_INT
                 (mkTensor [3; 3]%nat strides blob Int32 device) st
    = (inl (UnsupportedDtype Int32), st)
  ∧ LU_with_ipiv LUCPU LUCUDA BUILD_CUDA_MODULE sizeof_OPEN3D_CPU_LINALG_INT
                 (mkTensor [0; 0]%nat strides blob Float32 device) st
    = (inl EmptyDimension, st)
  ∧ LU_with_ipiv LUCPU LUCUDA BUILD_CUDA_MODULE sizeof_OPEN3D_CPU_LINALG_INT
                 (mkTensor [0; 3; 4]%nat strides blob Int64 device) st
    = (inl (UnsupportedDtype Int64), st)
  ∧ LU_with_ipiv LUCPU LUCUDA BUILD_CUDA_MODULE sizeof_OPEN3D_CPU_LINALG_INT
                 (mkTensor [0]%nat strides blob Float64 device) st
    = (inl (InvalidRank 1), st)
  ∧ LU_with_ipiv LUCPU LUCUDA BUILD_CUDA_MODULE sizeof_OPEN3D_CPU_LINALG_INT
                 (mkTensor [0; 3]%nat strides blob Float32 device) st
    = (inl (NotSquare 0 3), st).
Proof.
  split.
  - destruct (spec_validation (dtype_ A) (shape_ A)) as [e|] eqn:Hspec.
    + split; [by apply spec_validation_Some|by apply LU_rejects].
    + by apply spec_validation_None.
  - split_and!; by apply spec_validation_Some.
Qed.

(** C5.  When [permute_l] is true the returned lower factor is [P·L], where
    [L] is the unit lower triangular factor returned for the same input
    when [permute_l] is false; [P] and [U] are the same in both cases, and
    [A = (P·L)·U]. *)
Theorem C5_permute_l_returns_P_L
    (LUCPU LUCUDA : list Qc → nat → Dtype → Device → list Qc * list Z)
    (BUILD_CUDA_MODULE : bool) (sizeof_OPEN3D_CPU_LINALG_INT : Z)
    (Inverse : Matrix → option Matrix)
    (mem : gmap positive Blob) (events : list Event) (A : Tensor) (n : nat)
    (kernel : list Qc → nat → Dtype → Device → list Qc * list Z)
    (call : Event) (ipiv_dtype : Dtype) :
  valid_input mem A n →
  dispatched LUCPU LUCUDA BUILD_CUDA_MODULE sizeof_OPEN3D_CPU_LINALG_INT
             (device_ A) n (dtype_ A) kernel call ipiv_dtype →
  getrf_contract n (kernel_buffer mem A)
                 (kernel (kernel_buffer mem A) n (dtype_ A) (device_ A)) →
  (∀ G, gathered_identity n
          (kernel (kernel_buffer mem A) n (dtype_ A) (device_ A)).2 = Some G →
        Inverse_contract Inverse n G) →
  ∃ P L U L',
    (LU LUCPU LUCUDA BUILD_CUDA_MODULE sizeof_OPEN3D_CPU_LINALG_INT Inverse
        A false mem events).1 = inr (Some (P, L, U))
    ∧ unit_lower_triangular n L
    ∧ (LU LUCPU LUCUDA BUILD_CUDA_MODULE sizeof_OPEN3D_CPU_LINALG_INT Inverse
          A true mem events).1 = inr (Some (P, L', U))
    ∧ L' = Matmul P L
    ∧ tensor_matrix mem A = Matmul L' U.
Proof.
  intros Hvalid Hdisp (Hlen & Hpivots & Hlu) Hinverse.
  set (result := kernel (kernel_buffer mem A) n (dtype_ A) (device_ A)) in *.
  pose proof (valid_input_matrix _ _ _ Hvalid) as HA.
  unfold kernel_buffer in Hlu.
  rewrite (column_major_join_transpose n _ HA) in Hlu.
  assert (Hout : shaped n n (column_major n result.1)) by apply shaped_tabulate.
  exists (transpose (selection n (decode_spec result.2 n))),
         (unit_lower_part (column_major n result.1)),
         (upper_part (column_major n result.1)),
         (Matmul (transpose (selection n (decode_spec result.2 n)))
                 (unit_lower_part (column_major n result.1))).
  split_and!.
  - rewrite (LU_factorises _ _ _ _ _ A n kernel call ipiv_dtype)
      by (done || apply Hpivots).
    f_equal. by apply (OutputToPLU_decoded Inverse n).
  - by apply unit_lower_part_triangular.
  - rewrite (LU_factorises _ _ _ _ _ A n kernel call ipiv_dtype)
      by (done || apply Hpivots).
    f_equal. by apply (OutputToPLU_decoded Inverse n).
  - done.
  - by apply (reconstruction_permuted n).
Qed.

Lemma C5_witness :
  valid_input (store_of dense_matrix) (tensor_on host) 3
  ∧ ∃ P L U L',
      (LU getrf_reference getrf_reference true 4 Inverse_reference
          (tensor_on host) false (store_of dense_matrix) []).1
      = inr (Some (P, L, U))
      ∧ unit_lower_triangular 3 L
      ∧ (LU getrf_reference getrf_reference true 4 Inverse_reference
            (tensor_on host) true (store_of dense_matrix) []).1
        = inr (Some (P, L', U))
      ∧ L' = Matmul P L
      ∧ tensor_matrix (store_of dense_matrix) (tensor_on host) = Matmul L' U.
Proof.
  split; [by_evaluation|].
  apply (C5_permute_l_returns_P_L getrf_reference getrf_reference true 4
           Inverse_reference (store_of dense_matrix) [] (tensor_on host) 3
           getrf_reference (CallLUCPU 3 Float64 host) Int32).
  - by_evaluation.
  - by apply dispatched_host_32.
  - apply dense_getrf_contract.
  - apply dense_Inverse_contract.
Defined.

(** C6.  For every valid input, of any size [n], the returned [P] is a
    permutation matrix: exactly one entry 1 in each row and in each column,
    every other entry 0. *)
Theorem C6_P_is_a_permutation_matrix
    (LUCPU LUCUDA : list Qc → nat → Dtype → Device → list Qc * list Z)
    (BUILD_CUDA_MODULE : bool) (sizeof_OPEN3D_CPU_LINALG_INT : Z)
    (Inverse : Matrix → option Matrix)
    (mem : gmap positive Blob) (events : list Event) (A : Tensor) (n : nat)
    (kernel : list Qc → nat → Dtype → Device → list Qc * list Z)
    (call : Event) (ipiv_dtype : Dtype) (permute_l : bool) :
  valid_input mem A n →
  dispatched LUCPU LUCUDA BUILD_CUDA_MODULE sizeof_OPEN3D_CPU_LINALG_INT
             (device_ A) n (dtype_ A) kernel call ipiv_dtype →
  valid_pivots n (kernel (kernel_buffer mem A) n (dtype_ A) (device_ A)).2 →
  (∀ G, gathered_identity n
          (kernel (kernel_buffer mem A) n (dtype_ A) (device_ A)).2 = Some G →
        Inverse_contract Inverse n G) →
  ∃ P L U,
    (LU LUCPU LUCUDA BUILD_CUDA_MODULE sizeof_OPEN3D_CPU_LINALG_INT Inverse
        A permute_l mem events).1 = inr (Some (P, L, U))
    ∧ permutation_matrix n P.
Proof.
  intros Hvalid Hdisp Hpivots Hinverse.
  set (result := kernel (kernel_buffer mem A) n (dtype_ A) (device_ A)) in *.
  assert (Hout : shaped n n (column_major n result.1)) by apply shaped_tabulate.
  do 3 eexists. split.
  - rewrite (LU_factorises _ _ _ _ _ A n kernel call ipiv_dtype)
      by (done || apply Hpivots).
    f_equal. by apply (OutputToPLU_decoded Inverse n).
  - by apply permutation_matrix_transpose_selection, decoded_Permutation.
Qed.

Lemma C6_witness :
  valid_input (store_of dense_matrix) (tensor_on host) 3
  ∧ ∃ P L U,
      (LU getrf_reference getrf_reference true 4 Inverse_reference
          (tensor_on host) true (store_of dense_matrix) []).1
      = inr (Some (P, L, U))
      ∧ permutation_matrix 3 P.
Proof.
  split; [by_evaluation|].
  apply (C6_P_is_a_permutation_matrix getrf_reference getrf_reference true 4
           Inverse_reference (store_of dense_matrix) [] (tensor_on host) 3
           getrf_reference (CallLUCPU 3 Float64 host) Int32 true).
  - by_evaluation.
  - by apply dispatched_host_32.
  - apply dense_getrf_contract.
  - apply dense_Inverse_contract.
Defined.

(** C7.  Neither [LU_with_ipiv] nor [LU] writes to [A]: whatever the input
    and the outcome, the blob of [A] holds after the call what it held
    before it, and so does every blob that was there before the call; the
    driver works on a transposed copy in a new blob. *)
Theorem C7_input_is_never_written
    (LUCPU LUCUDA : list Qc → nat → Dtype → Device → list Qc * list Z)
    (BUILD_CUDA_MODULE : bool) (sizeof_OPEN3D_CPU_LINALG_INT : Z)
    (Inverse : Matrix → option Matrix)
    (A : Tensor) (st : State) (permute_l : bool) (contents : Blob) :
  st_memory st !! blob_ A = Some contents →
  st_memory (LU_with_ipiv LUCPU LUCUDA BUILD_CUDA_MODULE
                          sizeof_OPEN3D_CPU_LINALG_INT A st).2 !! blob_ A
  = Some contents
  ∧ st_memory (LU LUCPU LUCUDA BUILD_CUDA_MODULE sizeof_OPEN3D_CPU_LINALG_INT
                  Inverse A permute_l (st_memory st) (st_events st)).2
      !! blob_ A
    = Some contents
  ∧ extends (st_memory st)
      (st_memory (LU_with_ipiv LUCPU LUCUDA BUILD_CUDA_MODULE
                               sizeof_OPEN3D_CPU_LINALG_INT A st).2)
  ∧ extends (st_memory st)
      (st_memory (LU LUCPU LUCUDA BUILD_CUDA_MODULE
                     sizeof_OPEN3D_CPU_LINALG_INT Inverse A permute_l
                     (st_memory st) (st_events st)).2).
Proof.
  intros Hblob.
  assert (Hin : blob_ A ∈ dom (st_memory st)) by by apply elem_of_dom.
  pose proof (LU_with_ipiv_extends LUCPU LUCUDA BUILD_CUDA_MODULE
                sizeof_OPEN3D_CPU_LINALG_INT A st) as Hdriver.
  pose proof (LU_extends LUCPU LUCUDA BUILD_CUDA_MODULE
                sizeof_OPEN3D_CPU_LINALG_INT Inverse A permute_l
                (st_memory st) (st_events st)) as HLU.
  split_and!; try done.
  - destruct (Hdriver _ Hin) as [_ ->]. done.
  - destruct (HLU _ Hin) as [_ ->]. done.
Qed.

Lemma C7_witness :
  st_memory (caller_state dense_matrix) !! blob_ (tensor_on host)
  = Some (FloatBlob (mjoin dense_matrix))
  ∧ st_memory (LU_with_ipiv getrf_reference getrf_reference true 4
                 (tensor_on host) (caller_state dense_matrix)).2
      !! blob_ (tensor_on host)
    = Some (FloatBlob (mjoin dense_matrix)).
Proof.
  assert (H : st_memory (caller_state dense_matrix) !! blob_ (tensor_on host)
              = Some (FloatBlob (mjoin dense_matrix))) by reflexivity.
  split; [exact H|].
  exact (proj1 (C7_input_is_never_written getrf_reference getrf_reference
                  true 4 Inverse_reference (tensor_on host)
                  (caller_state dense_matrix) false _ H)).
Defined.

(** C8 (amended).  Backend dispatch, for an input that passes validation:
    on an accelerator device, when accelerator support is compiled in, the
    accelerator kernel is invoked and the pivot array is an Int32 tensor of
    [n] entries; on the host the host kernel is invoked and the pivot array
    is an Int32 or Int64 tensor of [n] entries, as the size of the host
    pivot integer is 4 or 8 bytes; for any other size UnsupportedIntegerWidth
    is raised and no kernel is invoked. *)
Theorem C8_backend_dispatch
    (LUCPU LUCUDA : list Qc → nat → Dtype → Device → list Qc * list Z)
    (BUILD_CUDA_MODULE : bool) (sizeof_OPEN3D_CPU_LINALG_INT : Z)
    (A : Tensor) (st : State) (n : nat) :
  valid_input (st_memory st) A n →
  (device_type (device_ A) = CUDA → BUILD_CUDA_MODULE = true →
   ∃ st',
     LU_with_ipiv LUCPU LUCUDA BUILD_CUDA_MODULE sizeof_OPEN3D_CPU_LINALG_INT
                  A st = (inr (), st')
     ∧ st_events st' = st_events st ++ [CallLUCUDA n (dtype_ A) (device_ A)]
     ∧ dtype_ (st_ipiv st') = Int32 ∧ shape_ (st_ipiv st') = [n])
  ∧ (device_type (device_ A) = CPU → sizeof_OPEN3D_CPU_LINALG_INT = 4%Z →
     ∃ st',
       LU_with_ipiv LUCPU LUCUDA BUILD_CUDA_MODULE sizeof_OPEN3D_CPU_LINALG_INT
                    A st = (inr (), st')
       ∧ st_events st' = st_events st ++ [CallLUCPU n (dtype_ A) (device_ A)]
       ∧ dtype_ (st_ipiv st') = Int32 ∧ shape_ (st_ipiv st') = [n])
  ∧ (device_type (device_ A) = CPU → sizeof_OPEN3D_CPU_LINALG_INT = 8%Z →
     ∃ st',
       LU_with_ipiv LUCPU LUCUDA BUILD_CUDA_MODULE sizeof_OPEN3D_CPU_LINALG_INT
                    A st = (inr (), st')
       ∧ st_events st' = st_events st ++ [CallLUCPU n (dtype_ A) (device_ A)]
       ∧ dtype_ (st_ipiv st') = Int64 ∧ shape_ (st_ipiv st') = [n])
  ∧ (device_type (device_ A) = CPU →
     sizeof_OPEN3D_CPU_LINALG_INT ≠ 4%Z → sizeof_OPEN3D_CPU_LINALG_INT ≠ 8%Z →
     ∃ st',
       LU_with_ipiv LUCPU LUCUDA BUILD_CUDA_MODULE sizeof_OPEN3D_CPU_LINALG_INT
                    A st = (inl UnsupportedIntegerWidth, st')
       ∧ st_events st' = st_events st).
Proof.
  intros Hvalid. split_and!.
  - intros Hdev Hbuild.
    destruct (driver_factorises LUCPU LUCUDA BUILD_CUDA_MODULE
                sizeof_OPEN3D_CPU_LINALG_INT A st n LUCUDA
                (CallLUCUDA n (dtype_ A) (device_ A)) Int32 Hvalid)
      as (st' & Hrun & _ & _ & Hshape & Hdtype & Hev);
      [by apply dispatched_accelerator|by exists st'].
  - intros Hdev Hsize.
    destruct (driver_factorises LUCPU LUCUDA BUILD_CUDA_MODULE
                sizeof_OPEN3D_CPU_LINALG_INT A st n LUCPU
                (CallLUCPU n (dtype_ A) (device_ A)) Int32 Hvalid)
      as (st' & Hrun & _ & _ & Hshape & Hdtype & Hev);
      [by apply dispatched_host_32|by exists st'].
  - intros Hdev Hsize.
    destruct (driver_factorises LUCPU LUCUDA BUILD_CUDA_MODULE
                sizeof_OPEN3D_CPU_LINALG_INT A st n LUCPU
                (CallLUCPU n (dtype_ A) (device_ A)) Int64 Hvalid)
      as (st' & Hrun & _ & _ & Hshape & Hdtype & Hev);
      [by apply dispatched_host_64|by exists st'].
  - intros Hdev H4 H8.
    destruct (driver_unsupported_width LUCPU LUCUDA BUILD_CUDA_MODULE
                sizeof_OPEN3D_CPU_LINALG_INT A st n Hvalid Hdev H4 H8)
      as (st' & Hrun & _ & Hev).
    by exists st'.
Qed.

Lemma C8_witness :
  valid_input (st_memory (caller_state dense_matrix)) (tensor_on host) 3
  ∧ ∃ st',
      LU_with_ipiv getrf_reference getrf_reference false 8
                   (tensor_on host) (caller_state dense_matrix)
      = (inr (), st')
      ∧ st_events st'
        = st_events (caller_state dense_matrix) ++ [CallLUCPU 3 Float64 host]
      ∧ dtype_ (st_ipiv st') = Int64 ∧ shape_ (st_ipiv st') = [3%nat].
Proof.
  assert (Hvalid : valid_input (st_memory (caller_state dense_matrix))
                               (tensor_on host) 3).
  { by_evaluation. }
  split; [exact Hvalid|].
  exact (proj1 (proj2 (proj2
           (C8_backend_dispatch getrf_reference getrf_reference false 8
              (tensor_on host) (caller_state dense_matrix) 3 Hvalid)))
           eq_refl eq_refl).
Defined.

(** C8, as stated, fails: for a valid tensor on an accelerator device, in a
    build without accelerator support, the driver returns without invoking
    the accelerator kernel (the only event is the diagnostic) and without
    allocating a pivot array ([ipiv] is the tensor of the caller, of element
    type Undefined). *)
Lemma C8_counterexample :
  valid_input (st_memory (caller_state dense_matrix)) (tensor_on accelerator) 3
  ∧ device_type (device_ (tensor_on accelerator)) = CUDA
  ∧ (LU_with_ipiv getrf_reference getrf_reference false 4
                  (tensor_on accelerator) (caller_state dense_matrix)).1
    = inr ()
  ∧ st_events (LU_with_ipiv getrf_reference getrf_reference false 4
                 (tensor_on accelerator) (caller_state dense_matrix)).2
    = [Info "Unimplemented device."]
  ∧ (CallLUCUDA 3 Float64 accelerator
     ∉ st_events (LU_with_ipiv getrf_reference getrf_reference false 4
                    (tensor_on accelerator) (caller_state dense_matrix)).2)
  ∧ st_ipiv (LU_with_ipiv getrf_reference getrf_reference false 4
               (tensor_on accelerator) (caller_state dense_matrix)).2
    = st_ipiv (caller_state dense_matrix)
  ∧ dtype_ (st_ipiv (LU_with_ipiv getrf_reference getrf_reference false 4
                       (tensor_on accelerator) (caller_state dense_matrix)).2)
    ≠ Int32.
Proof.
  split_and!; by_evaluation.
Qed.

(** C9.  When the input is on an accelerator device and accelerator support
    is not compiled in, the call of the driver raises no error for an input
    that passes validation: it returns, and the only event is the logged
    diagnostic; no kernel is invoked. *)
Theorem C9_degrade_path_logs_and_returns
    (LUCPU LUCUDA : list Qc → nat → Dtype → Device → list Qc * list Z)
    (sizeof_OPEN3D_CPU_LINALG_INT : Z)
    (A : Tensor) (st : State) (n : nat) :
  valid_input (st_memory st) A n →
  device_type (device_ A) = CUDA →
  ∃ st',
    LU_with_ipiv LUCPU LUCUDA false sizeof_OPEN3D_CPU_LINALG_INT A st
    = (inr (), st')
    ∧ st_events st' = st_events st ++ [Info "Unimplemented device."]
    ∧ (∀ m dtype device,
         CallLUCPU m dtype device ∈ st_events st' →
         CallLUCPU m dtype device ∈ st_events st)
    ∧ (∀ m dtype device,
         CallLUCUDA m dtype device ∈ st_events st' →
         CallLUCUDA m dtype device ∈ st_events st).
Proof.
  intros Hvalid Hdev.
  destruct (driver_degrades LUCPU LUCUDA false sizeof_OPEN3D_CPU_LINALG_INT
              A st n Hvalid Hdev eq_refl) as (st' & Hrun & _ & _ & _ & Hev).
  exists st'. rewrite Hev. split_and!; try done.
  - intros m dtype device Hin. apply elem_of_app in Hin as [Hin|Hin]; [done|].
    by apply list_elem_of_singleton in Hin.
  - intros m dtype device Hin. apply elem_of_app in Hin as [Hin|Hin]; [done|].
    by apply list_elem_of_singleton in Hin.
Qed.

Lemma C9_witness :
  valid_input (st_memory (caller_state dense_matrix)) (tensor_on accelerator) 3
  ∧ ∃ st',
      LU_with_ipiv getrf_reference getrf_reference false 4
                   (tensor_on accelerator) (caller_state dense_matrix)
      = (inr (), st')
      ∧ st_events st' = [Info "Unimplemented device."].
Proof.
  assert (Hvalid : valid_input (st_memory (caller_state dense_matrix))
                               (tensor_on accelerator) 3).
  { by_evaluation. }
  split; [exact Hvalid|].
  destruct (C9_degrade_path_logs_and_returns getrf_reference getrf_reference
              4 (tensor_on accelerator) (caller_state dense_matrix) 3
              Hvalid eq_refl) as (st' & Hrun & Hev & _).
  exists st'. split; [exact Hrun|exact Hev].
Defined.

(** C10.  On the degrade path the driver still assigns [output]: a tensor
    on a new blob whose elements are those of the input [A], which is not
    modified; [ipiv] is left as the caller passed it, and no blob of the
    caller is written. *)
Theorem C10_degrade_path_returns_copy_of_input
    (LUCPU LUCUDA : list Qc → nat → Dtype → Device → list Qc * list Z)
    (sizeof_OPEN3D_CPU_LINALG_INT : Z)
    (A : Tensor) (st : State) (n : nat) :
  valid_input (st_memory st) A n →
  device_type (device_ A) = CUDA →
  ∃ st',
    LU_with_ipiv LUCPU LUCUDA false sizeof_OPEN3D_CPU_LINALG_INT A st
    = (inr (), st')
    ∧ tensor_matrix (st_memory st') (st_output st')
      = tensor_matrix (st_memory st) A
    ∧ tensor_matrix (st_memory st') A = tensor_matrix (st_memory st) A
    ∧ (blob_ (st_output st') ∉ dom (st_memory st))
    ∧ st_ipiv st' = st_ipiv st
    ∧ extends (st_memory st) (st_memory st').
Proof.
  intros Hvalid Hdev.
  pose proof (LU_with_ipiv_extends LUCPU LUCUDA false
                sizeof_OPEN3D_CPU_LINALG_INT A st) as Hext.
  destruct (driver_degrades LUCPU LUCUDA false sizeof_OPEN3D_CPU_LINALG_INT
              A st n Hvalid Hdev eq_refl)
    as (st' & Hrun & Hmat & Hblob & Hipiv & Hev).
  rewrite Hrun in Hext. cbn [snd] in Hext.
  exists st'. split_and!; try done.
  by apply (valid_input_extends _ _ _ n Hext).
Qed.

Lemma C10_witness :
  valid_input (st_memory (caller_state dense_matrix)) (tensor_on accelerator) 3
  ∧ ∃ st',
      LU_with_ipiv getrf_reference getrf_reference false 4
                   (tensor_on accelerator) (caller_state dense_matrix)
      = (inr (), st')
      ∧ tensor_matrix (st_memory st') (st_output st')
        = tensor_matrix (st_memory (caller_state dense_matrix))
                        (tensor_on accelerator)
      ∧ st_ipiv st' = st_ipiv (caller_state dense_matrix).
Proof.
  assert (Hvalid : valid_input (st_memory (caller_state dense_matrix))
                               (tensor_on accelerator) 3).
  { by_evaluation. }
  split; [exact Hvalid|].
  destruct (C10_degrade_path_returns_copy_of_input getrf_reference
              getrf_reference 4 (tensor_on accelerator)
              (caller_state dense_matrix) 3 Hvalid eq_refl)
    as (st' & Hrun & Hmat & _ & _ & Hipiv & _).
  exists st'. split; [exact Hrun|]. split; [exact Hmat|exact Hipiv].
Defined.

(** * Further properties of the decoder *)

Section DecoderBounds.

Implicit Types (full ipiv : list Z) (i k n : nat).

(** A step that goes through has read a pivot in range, and keeps the
    length. *)
Lemma swap_iteration_inv ipiv full full' i :
  swap_iteration ipiv (Some full) i = Some full' →
  ∃ p, ipiv !! i = Some p
       ∧ (1 ≤ p ≤ Z.of_nat (length full))%Z
       ∧ length full' = length full.
Proof.
  intros Hstep.
  assert (Hlen : length full' = length full).
  { apply Permutation_length. by eapply swap_iteration_Permutation. }
  revert Hstep. unfold swap_iteration. simpl. rewrite !c_read_nat.
  destruct (full !! i) as [temp|] eqn:Htemp; [simpl|done].
  destruct (ipiv !! i) as [p|] eqn:Hp; [simpl|done].
  unfold c_read at 1. case_decide as Hp0; [|done].
  destruct (full !! Z.to_nat (p - 1)) as [x|] eqn:Hx; [simpl|done].
  intros _. exists p. split; [done|]. split; [|done].
  apply lookup_lt_Some in Hx. lia.
Qed.

Lemma loop_inv ipiv (l : list nat) full full' :
  foldl (swap_iteration ipiv) (Some full) l = Some full' →
  Forall (λ i, ∃ p, ipiv !! i = Some p
                    ∧ (1 ≤ p ≤ Z.of_nat (length full))%Z) l.
Proof.
  revert full. induction l as [|i l IH]; intros full; cbn [foldl]; [done|].
  destruct (swap_iteration ipiv (Some full) i) as [full1|] eqn:Hstep.
  - intros Hrest.
    destruct (swap_iteration_inv _ _ _ _ Hstep) as (p & Hp & Hrange & Hlen).
    constructor; [by exists p|].
    rewrite <- Hlen. by apply IH.
  - by rewrite loop_None.
Qed.

(** A step reads the pivot array at its own index only. *)
Lemma swap_iteration_ext ipiv ipiv' state i :
  ipiv !! i = ipiv' !! i →
  swap_iteration ipiv state i = swap_iteration ipiv' state i.
Proof.
  intros Heq. unfold swap_iteration. destruct state as [full|]; [simpl|done].
  by rewrite !c_read_nat, Heq.
Qed.

Lemma loop_ext ipiv ipiv' (l : list nat) state :
  Forall (λ i, ipiv !! i = ipiv' !! i) l →
  foldl (swap_iteration ipiv) state l = foldl (swap_iteration ipiv') state l.
Proof.
  intros Hall. revert state.
  induction Hall as [|i l Hi _ IH]; intros state; cbn [foldl]; [done|].
  by rewrite (swap_iteration_ext ipiv ipiv'), IH.
Qed.

Lemma GetColPermutation_take ipiv ipiv' k k' n :
  take n ipiv = take n ipiv' →
  GetColPermutation ipiv k n = GetColPermutation ipiv' k' n.
Proof.
  intros Htake. unfold GetColPermutation. apply loop_ext.
  apply Forall_forall. intros i Hi. apply elem_of_seq in Hi.
  rewrite <- (lookup_take_lt ipiv n i), <- (lookup_take_lt ipiv' n i) by lia.
  by rewrite Htake.
Qed.

Lemma GetColPermutation_is_Some ipiv k n :
  is_Some (GetColPermutation ipiv k n)
  ↔ (n ≤ length ipiv)%nat
    ∧ Forall (λ p, (1 ≤ p ≤ Z.of_nat n)%Z) (take n ipiv).
Proof.
  split.
  - intros [full Hfull]. unfold GetColPermutation in Hfull.
    apply loop_inv in Hfull. rewrite length_Arange in Hfull.
    rewrite Forall_forall in Hfull. setoid_rewrite elem_of_seq in Hfull.
    assert (Hlen : (n ≤ length ipiv)%nat).
    { destruct n as [|m]; [lia|].
      destruct (Hfull m) as (p & Hp & _); [lia|].
      apply lookup_lt_Some in Hp. lia. }
    split; [done|]. apply Forall_lookup. intros i x Hx.
    apply lookup_take_Some in Hx as [Hx Hi].
    destruct (Hfull i) as (p & Hp & Hrange); [lia|]. congruence.
  - intros [Hlen Hall].
    rewrite (GetColPermutation_take ipiv (take n ipiv) k
               (length (take n ipiv)) n)
      by (by rewrite take_take, Nat.min_id).
    rewrite GetColPermutation_decode; [done|].
    split; [by apply length_take_le|done].
Qed.

(** The pivot array of no exchange, [1, 2, .., n]. *)
Lemma swap_entries_same {X} (d : X) (l : list X) a : swap_entries d l a a = l.
Proof.
  unfold swap_entries. apply list_eq. intros k. rewrite list_lookup_fmap.
  destruct (decide (k < length l)%nat) as [Hk|Hk].
  - rewrite lookup_seq_lt by done. simpl.
    destruct (lookup_lt_is_Some_2 l k Hk) as [x Hx]. rewrite Hx. f_equal.
    destruct (decide (k = a)) as [->|_]; by apply nth_lookup_Some.
  - rewrite lookup_seq_ge by lia. symmetry. apply lookup_ge_None_2. lia.
Qed.

Lemma replay_from_no_exchange {X} (d : X) (m : nat) :
  ∀ i (l : list X), replay_from d i (Z.of_nat <$> seq (S i) m) l = l.
Proof.
  induction m as [|m IH]; intros i l; [done|].
  cbn [seq fmap list_fmap replay_from].
  replace (Z.to_nat (Z.of_nat (S i) - 1)) with i by lia.
  rewrite swap_entries_same. apply IH.
Qed.

Lemma GetColPermutation_no_exchange k n :
  GetColPermutation (Z.of_nat <$> seq 1 n) k n = Some (Arange n).
Proof.
  rewrite (GetColPermutation_take _ (Z.of_nat <$> seq 1 n) k
             (length (Z.of_nat <$> seq 1 n)) n) by done.
  rewrite GetColPermutation_decode.
  - f_equal. apply replay_from_no_exchange.
  - split; [by rewrite length_fmap, length_seq|].
    apply Forall_fmap, Forall_forall. intros i Hi.
    apply elem_of_seq in Hi. simpl. lia.
Qed.

End DecoderBounds.

(** X1.  Whenever the decoder returns, whatever the pivot array, its result
    is a permutation of the row indices: it has [number_of_rows] entries,
    no entry twice, and its entries are exactly [0 .. number_of_rows - 1]. *)
Theorem X1_decoder_result_is_a_permutation
    (ipiv : list Z) (number_of_indices number_of_rows : nat) (full : list Z) :
  GetColPermutation ipiv number_of_indices number_of_rows = Some full →
  length full = number_of_rows
  ∧ NoDup full
  ∧ ∀ z, z ∈ full ↔ (0 ≤ z < Z.of_nat number_of_rows)%Z.
Proof.
  intros Hfull. apply GetColPermutation_Permutation in Hfull.
  split_and!.
  - by rewrite Hfull, length_Arange.
  - rewrite Hfull. apply NoDup_Arange.
  - intros z. rewrite Hfull, elem_of_Arange. split.
    + intros (k & -> & Hk). lia.
    + intros Hz. exists (Z.to_nat z). lia.
Qed.

Lemma X1_witness :
  GetColPermutation [2; 3; 3]%Z 7 3 = Some [1; 2; 0]%Z
  ∧ length [1; 2; 0]%Z = 3%nat
  ∧ NoDup [1; 2; 0]%Z.
Proof.
  assert (H : GetColPermutation [2; 3; 3]%Z 7 3 = Some [1; 2; 0]%Z)
    by reflexivity.
  split; [exact H|].
  destruct (X1_decoder_result_is_a_permutation _ _ _ _ H) as (Hlen & Hnd & _).
  split; [exact Hlen|exact Hnd].
Defined.


(** X3.  The decoder reads the first [number_of_rows] entries of the pivot
    array and nothing else: neither later entries nor the argument
    [number_of_indices] change its result. *)
Theorem X3_decoder_reads_first_rows_only
    (ipiv ipiv' : list Z) (number_of_indices number_of_indices' : nat)
    (number_of_rows : nat) :
  take number_of_rows ipiv = take number_of_rows ipiv' →
  GetColPermutation ipiv number_of_indices number_of_rows
  = GetColPermutation ipiv' number_of_indices' number_of_rows.
Proof. apply GetColPermutation_take. Qed.

Lemma X3_witness :
  take 3 [3; 3; 3; 9; 0]%Z = take 3 [3; 3; 3]%Z
  ∧ GetColPermutation [3; 3; 3; 9; 0]%Z 5 3
    = GetColPermutation [3; 3; 3]%Z 0 3.
Proof.
  split; [reflexivity|].
  apply (X3_decoder_reads_first_rows_only [3; 3; 3; 9; 0]%Z [3; 3; 3]%Z 5 0 3).
  reflexivity.
Defined.

(** * Further properties of the reconstructor *)

Section ReconstructorMore.

Implicit Types (M : Matrix) (n i j : nat).

Lemma source_row_Arange n j : (j < n)%nat → source_row (Arange n) j = j.
Proof.
  intros Hj. unfold source_row, Arange.
  rewrite (nth_lookup_Some _ _ _ (Z.of_nat j)); [lia|].
  by rewrite list_lookup_fmap, lookup_seq_lt.
Qed.

Lemma selection_Arange n : selection n (Arange n) = Eye n.
Proof.
  unfold selection, Eye. apply tabulate_ext. intros j c Hj Hc.
  by rewrite source_row_Arange.
Qed.

Lemma transpose_Eye n : transpose (Eye n) = Eye n.
Proof.
  unfold Eye. rewrite transpose_tabulate. apply tabulate_ext.
  intros i j _ _. repeat case_decide; congruence.
Qed.

Lemma Matmul_Eye_l n M : shaped n n M → Matmul (Eye n) M = M.
Proof.
  intros HM. rewrite (Matmul_square n) by (done || apply shaped_tabulate).
  transitivity (tabulate n n (entry M)); [|by apply tabulate_entry].
  apply tabulate_ext. intros i j Hi Hj.
  rewrite (sum_upto_single n _ i Hi).
  - rewrite entry_Eye by done. rewrite decide_True by done. ring.
  - intros k Hk Hne. rewrite entry_Eye by done.
    rewrite decide_False by done. ring.
Qed.

Lemma decode_spec_no_exchange n :
  decode_spec (Z.of_nat <$> seq 1 n) n = Arange n.
Proof. apply replay_from_no_exchange. Qed.

Lemma valid_pivots_no_exchange n : valid_pivots n (Z.of_nat <$> seq 1 n).
Proof.
  split; [by rewrite length_fmap, length_seq|].
  apply Forall_fmap, Forall_forall. intros i Hi.
  apply elem_of_seq in Hi. simpl. lia.
Qed.

(** The transpose meets the contract of [Inverse] on the matrix the
    reconstructor inverts. *)
Lemma transpose_meets_contract n ipiv G :
  valid_pivots n ipiv →
  gathered_identity n ipiv = Some G →
  Inverse_contract (λ G, Some (transpose G)) n G.
Proof.
  intros Hpivots HG. rewrite (gathered_identity_decoded n ipiv Hpivots) in HG.
  injection HG as <-. eexists. split; [done|].
  by apply is_inverse_transpose_selection, decoded_Permutation.
Qed.

End ReconstructorMore.

Lemma dense_ipiv_Inverse_contract G :
  gathered_identity 3 dense_ipiv = Some G →
  Inverse_contract Inverse_reference 3 G.
Proof.
  intros HG. vm_compute in HG. injection HG as <-.
  exists cyclic_P. split; by_evaluation.
Defined.

(** X4.  A pivot array that records no exchange, [1, 2, .., n], decodes to
    the identity index vector, and the reconstructor then returns the
    identity matrix as [P]; [permute_l] makes no difference to the lower
    factor. *)
Theorem X4_no_exchange_gives_identity_permutation
    (Inverse : Matrix → option Matrix) (n : nat) (output : Matrix)
    (permute_l : bool) :
  shaped n n output →
  Inverse_contract Inverse n (Eye n) →
  GetColPermutation (Z.of_nat <$> seq 1 n) n n = Some (Z.of_nat <$> seq 0 n)
  ∧ OutputToPLU Inverse output (Z.of_nat <$> seq 1 n) permute_l
    = Some (Eye n, unit_lower_part output, upper_part output).
Proof.
  intros Hout Hinv. split; [apply GetColPermutation_no_exchange|].
  rewrite (OutputToPLU_decoded Inverse n output _ Hout
             (valid_pivots_no_exchange n)).
  - rewrite decode_spec_no_exchange, selection_Arange, transpose_Eye.
    destruct permute_l; [|done].
    rewrite Matmul_Eye_l; [done|]. by apply unit_lower_part_triangular.
  - intros G HG.
    rewrite (gathered_identity_decoded n _ (valid_pivots_no_exchange n)) in HG.
    rewrite decode_spec_no_exchange, selection_Arange in HG.
    by injection HG as <-.
Qed.

Lemma X4_witness :
  shaped 3 3 dense_output
  ∧ OutputToPLU Inverse_reference dense_output [1; 2; 3]%Z true
    = Some (Eye 3, unit_lower_part dense_output, upper_part dense_output).
Proof.
  assert (Hout : shaped 3 3 dense_output) by by_evaluation.
  split; [exact Hout|].
  refine (proj2 (X4_no_exchange_gives_identity_permutation
                   Inverse_reference 3 dense_output true Hout _)).
  exists (Eye 3). split; by_evaluation.
Defined.

(** X5.  The decoded index vector is the net effect of the exchanges: taking
    the rows of any matrix of [n] rows at the decoded indices gives the
    rows after row [i] was exchanged with row [ipiv[i]], for [i = 1 .. n]
    in this order. *)
Theorem X5_decoded_indices_gather_the_exchanged_rows
    (n c : nat) (A : Matrix) (ipiv : list Z) :
  shaped n c A →
  valid_pivots n ipiv →
  GetColPermutation ipiv (length ipiv) n ≫= IndexGet A
  = Some (exchange_rows ipiv A).
Proof.
  intros HA Hpivots. rewrite GetColPermutation_decode by done. simpl.
  rewrite IndexGet_Some.
  - f_equal. symmetry. by apply (exchange_rows_gather n c).
  - rewrite (proj1 HA). by apply decoded_in_range, decoded_Permutation.
Qed.

Lemma X5_witness :
  shaped 3 3 dense_matrix
  ∧ GetColPermutation [2; 3; 3]%Z 3 3 ≫= IndexGet dense_matrix
    = Some (exchange_rows [2; 3; 3]%Z dense_matrix).
Proof.
  assert (HA : shaped 3 3 dense_matrix) by by_evaluation.
  split; [exact HA|].
  apply (X5_decoded_indices_gather_the_exchanged_rows 3 3 dense_matrix
           [2; 3; 3]%Z HA).
  by_evaluation.
Defined.

(** X6.  The returned [P] in closed form: column [j] of [P] has its 1 in row
    [full[j]], where [full] is the decoded index vector, and zeros
    elsewhere. *)
Theorem X6_P_has_its_ones_at_the_decoded_rows
    (Inverse : Matrix → option Matrix) (n : nat) (output : Matrix)
    (ipiv : list Z) (permute_l : bool) :
  shaped n n output →
  valid_pivots n ipiv →
  (∀ G, gathered_identity n ipiv = Some G → Inverse_contract Inverse n G) →
  ∃ full P L U,
    GetColPermutation ipiv (length ipiv) n = Some full
    ∧ OutputToPLU Inverse output ipiv permute_l = Some (P, L, U)
    ∧ ∀ i j, (i < n)%nat → (j < n)%nat →
        entry P i j
        = if decide (full !! j = Some (Z.of_nat i)) then 1%Qc else 0%Qc.
Proof.
  intros Hout Hpivots Hinverse.
  pose proof (decoded_Permutation n ipiv Hpivots) as Hperm.
  do 4 eexists. split_and!.
  - by apply GetColPermutation_decode.
  - by apply (OutputToPLU_decoded Inverse n).
  - intros i j Hi Hj. rewrite entry_transpose_selection by done.
    destruct (decoded_lookup n _ Hperm j Hj) as [-> _].
    repeat case_decide; simplify_eq; try done; lia.
Qed.

Lemma X6_witness :
  shaped 3 3 dense_output
  ∧ ∃ full P L U,
      GetColPermutation dense_ipiv (length dense_ipiv) 3 = Some full
      ∧ OutputToPLU Inverse_reference dense_output dense_ipiv false
        = Some (P, L, U)
      ∧ ∀ i j, (i < 3)%nat → (j < 3)%nat →
          entry P i j
          = if decide (full !! j = Some (Z.of_nat i)) then 1%Qc else 0%Qc.
Proof.
  assert (Hout : shaped 3 3 dense_output) by by_evaluation.
  split; [exact Hout|].
  apply (X6_P_has_its_ones_at_the_decoded_rows Inverse_reference 3
           dense_output dense_ipiv false Hout).
  - by_evaluation.
  - apply dense_ipiv_Inverse_contract.
Defined.

(** X7.  The general inverse can be replaced by a transposition: on a valid
    pivot array the reconstructor returns the same triple with any inverse
    that meets its contract as with the function that transposes. *)
Theorem X7_inverse_can_be_a_transposition
    (Inverse : Matrix → option Matrix) (n : nat) (output : Matrix)
    (ipiv : list Z) (permute_l : bool) :
  shaped n n output →
  valid_pivots n ipiv →
  (∀ G, gathered_identity n ipiv = Some G → Inverse_contract Inverse n G) →
  OutputToPLU Inverse output ipiv permute_l
  = OutputToPLU (λ G, Some (transpose G)) output ipiv permute_l.
Proof.
  intros Hout Hpivots Hinverse.
  rewrite (OutputToPLU_decoded Inverse n output ipiv) by done.
  rewrite (OutputToPLU_decoded (λ G, Some (transpose G)) n output ipiv);
    [done..|].
  intros G HG. by apply (transpose_meets_contract n ipiv).
Qed.

Lemma X7_witness :
  shaped 3 3 dense_output
  ∧ OutputToPLU Inverse_reference dense_output dense_ipiv true
    = OutputToPLU (λ G, Some (transpose G)) dense_output dense_ipiv true.
Proof.
  assert (Hout : shaped 3 3 dense_output) by by_evaluation.
  split; [exact Hout|].
  apply (X7_inverse_can_be_a_transposition Inverse_reference 3
           dense_output dense_ipiv true Hout).
  - by_evaluation.
  - apply dense_ipiv_Inverse_contract.
Defined.

(** X8.  The returned [P] is orthogonal, [Pᵀ·P = P·Pᵀ = I], and the caller of
    the [permute_l] variant recovers the unit lower triangular factor from
    the returned lower factor [L'] as [Pᵀ·L']. *)
Theorem X8_P_is_orthogonal_and_L_is_recovered
    (Inverse : Matrix → option Matrix) (n : nat) (output : Matrix)
    (ipiv : list Z) :
  shaped n n output →
  valid_pivots n ipiv →
  (∀ G, gathered_identity n ipiv = Some G → Inverse_contract Inverse n G) →
  ∃ P L U L',
    OutputToPLU Inverse output ipiv false = Some (P, L, U)
    ∧ OutputToPLU Inverse output ipiv true = Some (P, L', U)
    ∧ shaped n n P ∧ shaped n n L ∧ shaped n n U ∧ shaped n n L'
    ∧ Matmul (transpose P) P = Eye n
    ∧ Matmul P (transpose P) = Eye n
    ∧ Matmul (transpose P) L' = L.
Proof.
  intros Hout Hpivots Hinverse.
  pose proof (decoded_Permutation n ipiv Hpivots) as Hperm.
  destruct (is_inverse_transpose_selection n _ Hperm) as (HP & Hleft & Hright).
  pose proof (unit_lower_part_triangular n output Hout) as [HL _].
  pose proof (upper_part_triangular n output Hout) as [HU _].
  set (G := selection n (decode_spec ipiv n)) in *.
  assert (HG : shaped n n G) by apply shaped_selection.
  exists (transpose G), (unit_lower_part output), (upper_part output),
         (Matmul (transpose G) (unit_lower_part output)).
  rewrite (transpose_involutive n G HG).
  split_and!; try done.
  - by apply (OutputToPLU_decoded Inverse n).
  - by apply (OutputToPLU_decoded Inverse n).
  - rewrite (Matmul_square n) by done. apply shaped_tabulate.
  - rewrite <- (Matmul_assoc n), Hright by done. by apply Matmul_Eye_l.
Qed.

Lemma X8_witness :
  shaped 3 3 dense_output
  ∧ ∃ P L U L',
      OutputToPLU Inverse_reference dense_output dense_ipiv false
      = Some (P, L, U)
      ∧ OutputToPLU Inverse_reference dense_output dense_ipiv true
        = Some (P, L', U)
      ∧ Matmul (transpose P) L' = L.
Proof.
  assert (Hout : shaped 3 3 dense_output) by by_evaluation.
  split; [exact Hout|].
  destruct (X8_P_is_orthogonal_and_L_is_recovered Inverse_reference 3
              dense_output dense_ipiv Hout)
    as (P & L & U & L' & Hfalse & Htrue & _ & _ & _ & _ & _ & _ & Hrec).
  - by_evaluation.
  - apply dense_ipiv_Inverse_contract.
  - exists P, L, U, L'. split; [exact Hfalse|]. split; [exact Htrue|exact Hrec].
Defined.

(** * Further properties of the driver *)

Section DriverOutcome.

Variable LUCPU LUCUDA : list Qc → nat → Dtype → Device → list Qc * list Z.
Variable BUILD_CUDA_MODULE : bool.
Variable sizeof_OPEN3D_CPU_LINALG_INT : Z.

Implicit Types (st : State) (A t : Tensor) (mem : gmap positive Blob).

Lemma T_square t n :
  shape_ t = [n; n] →
  shape_ (T t) = [n; n] ∧ dtype_ (T t) = dtype_ t ∧ device_ (T t) = device_ t.
Proof.
  intros Hshape. unfold T. rewrite Hshape.
  by destruct (strides_ t) as [|s0 [|s1 [|]]].
Qed.

(** The last statement, whatever the blob of [output] holds. *)
Lemma finish_metadata st n l1 dtype device :
  st_output st = mkTensor [n; n] [(n * 1)%nat; 1%nat] l1 dtype device →
  ∃ st',
    (get_output ≫= λ output,
     Contiguous (T output) ≫= λ output, set_output output) st
    = (inr (), st')
    ∧ st_output st'
      = mkTensor [n; n] [(n * 1)%nat; 1%nat] (blob_ (st_output st'))
                 dtype device
    ∧ st_ipiv st' = st_ipiv st
    ∧ st_events st' = st_events st
    ∧ (blob_ (st_output st') = l1
       ∨ blob_ (st_output st') = fresh (dom (st_memory st))).
Proof.
  intros Hout. run_step. rewrite Hout.
  cbn [T shape_ strides_ blob_ dtype_ device_].
  rewrite run_bind. unfold Contiguous.
  cbn [shape_ strides_ default_strides foldr].
  destruct (decide ([1%nat; (n * 1)%nat] = [(n * 1)%nat; 1%nat])) as [Heq|Hne].
  - run_step. run_step. eexists. split; [done|].
    cbn [st_memory st_ipiv st_output st_events blob_].
    split_and!; [|done|done|by left].
    assert (n = 1%nat) as -> by (injection Heq; lia). done.
  - run_step. run_step. eexists. split; [done|].
    cbn [st_memory st_ipiv st_output st_events blob_
         shape_ dtype_ device_ default_strides foldr].
    split_and!; try done. by right.
Qed.

(** Every outcome of the driver.  A call that raises leaves [ipiv] and the
    events as they were.  A call that returns leaves in [output] a
    contiguous n×n tensor of the element type and on the device of [A], on
    a new blob, and has appended one event: the diagnostic of the degrade
    path, with [ipiv] as it was, or the call of one kernel, with [ipiv] a
    vector of [n] elements on a second new blob. *)
Lemma driver_outcome A st :
  let n := nth 0 (shape_ A) 0%nat in
  (∃ e st',
     LU_with_ipiv LUCPU LUCUDA BUILD_CUDA_MODULE sizeof_OPEN3D_CPU_LINALG_INT
                  A st = (inl e, st')
     ∧ st_ipiv st' = st_ipiv st ∧ st_events st' = st_events st)
  ∨ (∃ st' new,
       LU_with_ipiv LUCPU LUCUDA BUILD_CUDA_MODULE sizeof_OPEN3D_CPU_LINALG_INT
                    A st = (inr (), st')
       ∧ shape_ A = [n; n] ∧ n ≠ 0%nat
       ∧ st_output st'
         = mkTensor [n; n] [(n * 1)%nat; 1%nat] (blob_ (st_output st'))
                    (dtype_ A) (device_ A)
       ∧ (blob_ (st_output st') ∉ dom (st_memory st))
       ∧ st_events st' = st_events st ++ [new]
       ∧ ((new = Info "Unimplemented device."
           ∧ device_type (device_ A) = CUDA ∧ BUILD_CUDA_MODULE = false
           ∧ st_ipiv st' = st_ipiv st)
          ∨ ((new = CallLUCUDA n (dtype_ A) (device_ A)
              ∧ device_type (device_ A) = CUDA ∧ BUILD_CUDA_MODULE = true
              ∨ new = CallLUCPU n (dtype_ A) (device_ A)
                ∧ device_type (device_ A) = CPU
                ∧ (sizeof_OPEN3D_CPU_LINALG_INT = 4%Z
                   ∨ sizeof_OPEN3D_CPU_LINALG_INT = 8%Z))
             ∧ (blob_ (st_ipiv st') ∉ dom (st_memory st))
             ∧ blob_ (st_ipiv st') ≠ blob_ (st_output st')
             ∧ shape_ (st_ipiv st') = [n]))).
Proof.
  intros n. unfold LU_with_ipiv.
  destruct (decide (dtype_ A ≠ Float32 ∧ dtype_ A ≠ Float64)) as [?|Hc1].
  { left. do 2 eexists. run_step. split; [reflexivity|]. split; reflexivity. }
  run_step.
  destruct (decide (length (shape_ A) ≠ 2%nat)) as [?|Hc2].
  { left. do 2 eexists. run_step. split; [reflexivity|]. split; reflexivity. }
  run_step.
  destruct (decide (nth 0 (shape_ A) 0%nat ≠ nth 1 (shape_ A) 0%nat))
    as [?|Hc3].
  { left. do 2 eexists. run_step. split; [reflexivity|]. split; reflexivity. }
  run_step. fold n.
  destruct (decide (n = 0%nat)) as [?|Hc4].
  { left. do 2 eexists. run_step. split; [reflexivity|]. split; reflexivity. }
  run_step.
  assert (Hshape : shape_ A = [n; n]).
  { unfold n in *. destruct (shape_ A) as [|a [|b [|extra rest]]];
      simpl in *; try (exfalso; apply Hc2; congruence).
    f_equal. f_equal. symmetry. by apply dec_stable. }
  destruct (T_square A n Hshape) as (HTs & HTd & HTdev).
  do 2 run_step. rewrite HTs, HTd, HTdev.
  set (mem0 := st_memory st).
  set (l1 := fresh (dom mem0)).
  set (mem1 := <[l1 := _]> mem0).
  set (l2 := fresh (dom mem1)).
  assert (Hl1 : l1 ∉ dom mem0) by apply is_fresh.
  assert (Hl12 : l2 ≠ l1).
  { intros Heq. apply (is_fresh (dom mem1)). fold l2. rewrite Heq.
    unfold mem1. rewrite dom_insert_L.
    apply elem_of_union. left. by apply elem_of_singleton. }
  assert (Hl2 : l2 ∉ dom mem0).
  { apply fresh_not_in_extended. apply extends_fresh. }
  assert (Hl3 : ∀ mem',
    extends mem0 mem' → l2 ∈ dom mem' →
    (fresh (dom mem') ∉ dom mem0) ∧ fresh (dom mem') ≠ l2).
  { intros mem' Hext Hin. split; [by apply fresh_not_in_extended|].
    intros Heq. apply (is_fresh (dom mem')). by rewrite Heq. }
  assert (Hl3' : fresh (dom mem1) ∉ dom mem0).
  { apply fresh_not_in_extended. apply extends_fresh. }
  assert (Hrest : ∀ kernel call ipiv_dtype st1,
    st_memory st1 = mem1 →
    st_output st1 = mkTensor [n; n] (default_strides [n; n]) l1
                             (dtype_ A) (device_ A) →
    st_events st1 = st_events st →
    ∃ st',
      match (Empty [n] ipiv_dtype (device_ A) ≫= λ ipiv,
             set_ipiv ipiv;;
             run_kernel kernel call l1 (GetDataPtr ipiv) n
                        (dtype_ A) (device_ A)) st1
      with
      | (inl e, st') => (inl e, st')
      | (inr _, st') =>
          (get_output ≫= λ output,
           Contiguous (T output) ≫= λ output, set_output output) st'
      end = (inr (), st')
      ∧ st_output st'
        = mkTensor [n; n] [(n * 1)%nat; 1%nat] (blob_ (st_output st'))
                   (dtype_ A) (device_ A)
      ∧ (blob_ (st_output st') ∉ dom mem0)
      ∧ st_events st' = st_events st ++ [call]
      ∧ (blob_ (st_ipiv st') ∉ dom mem0)
      ∧ blob_ (st_ipiv st') ≠ blob_ (st_output st')
      ∧ shape_ (st_ipiv st') = [n]).
  { intros kernel call ipiv_dtype st1 Hmem1 Hout1 Hev1. do 3 run_step.
    rewrite Hmem1. fold l2.
    match goal with |- context [(get_output ≫= _) ?s] => set (st3 := s) end.
    destruct (finish_metadata st3 n l1 (dtype_ A) (device_ A))
      as (st' & Hrun & Hout & Hipiv & Hev & Hblob).
    { unfold st3. cbn [st_output]. by rewrite Hout1. }
    exists st'. split; [exact Hrun|]. rewrite Hipiv, Hev.
    unfold st3 at 1 2 3. cbn [st_ipiv st_events shape_ blob_].
    unfold st3 in Hblob. cbn [st_memory] in Hblob.
    assert (Hext3 : extends mem0
      (<[l2 := IntBlob (kernel (float_data
                 (<[l2 := Empty_blob [n] ipiv_dtype]> mem1) l1) n
                 (dtype_ A) (device_ A)).2]>
         (<[l1 := FloatBlob (kernel (float_data
                    (<[l2 := Empty_blob [n] ipiv_dtype]> mem1) l1) n
                    (dtype_ A) (device_ A)).1]>
            (<[l2 := Empty_blob [n] ipiv_dtype]> mem1)))).
    { do 2 (apply extends_write; [|done]).
      eapply extends_trans; apply extends_fresh. }
    assert (Hin3 : l2 ∈ dom
      (<[l2 := IntBlob (kernel (float_data
                 (<[l2 := Empty_blob [n] ipiv_dtype]> mem1) l1) n
                 (dtype_ A) (device_ A)).2]>
         (<[l1 := FloatBlob (kernel (float_data
                    (<[l2 := Empty_blob [n] ipiv_dtype]> mem1) l1) n
                    (dtype_ A) (device_ A)).1]>
            (<[l2 := Empty_blob [n] ipiv_dtype]> mem1)))).
    { rewrite dom_insert_L. apply elem_of_union. left.
      by apply elem_of_singleton. }
    destruct (Hl3 _ Hext3 Hin3) as [Hnew Hne].
    split_and!; try done.
    - by destruct Hblob as [->| ->].
    - by rewrite Hev1.
    - destruct Hblob as [->| ->]; [done|]. intros Heq. by apply Hne.
  }
  destruct (decide (device_type (device_ A) = CUDA)) as [Hdev|Hdev].
  - destruct BUILD_CUDA_MODULE eqn:Hbuild.
    + right. rewrite run_bind.
      destruct (Hrest LUCUDA (CallLUCUDA n (dtype_ A) (device_ A)) Int32
                  (mkState mem1 (st_ipiv st)
                     (mkTensor [n; n] (default_strides [n; n]) l1
                               (dtype_ A) (device_ A)) (st_events st)))
        as (st' & Hrun & Hout & Hblob & Hev & Hib & Hio & Hshp); try done.
      exists st', (CallLUCUDA n (dtype_ A) (device_ A)).
      split; [exact Hrun|]. split_and!; try done. right. split_and!; try done.
      by left.
    + right. do 1 run_step.
      match goal with |- context [(get_output ≫= _) ?s] => set (st3 := s) end.
      destruct (finish_metadata st3 n l1 (dtype_ A) (device_ A))
        as (st' & Hrun & Hout & Hipiv & Hev & Hblob); [done|].
      exists st', (Info "Unimplemented device.").
      split; [exact Hrun|]. rewrite Hipiv, Hev.
      unfold st3 in Hblob |- *. cbn [st_memory st_ipiv st_events] in Hblob |- *.
      split_and!; try done; [|by left].
      destruct Hblob as [->| ->]; done.
  - assert (Hcpu : device_type (device_ A) = CPU)
      by by destruct (device_type (device_ A)).
    rewrite run_bind, run_bind.
    destruct (decide (sizeof_OPEN3D_CPU_LINALG_INT = 4%Z)) as [H4|H4].
    + right. rewrite run_ret. cbv beta iota.
      destruct (Hrest LUCPU (CallLUCPU n (dtype_ A) (device_ A)) Int32
                  (mkState mem1 (st_ipiv st)
                     (mkTensor [n; n] (default_strides [n; n]) l1
                               (dtype_ A) (device_ A)) (st_events st)))
        as (st' & Hrun & Hout & Hblob & Hev & Hib & Hio & Hshp); try done.
      exists st', (CallLUCPU n (dtype_ A) (device_ A)).
      split; [exact Hrun|]. split_and!; try done. right. split_and!; try done.
      right. split_and!; try done. by left.
    + destruct (decide (sizeof_OPEN3D_CPU_LINALG_INT = 8%Z)) as [H8|H8].
      * right. rewrite run_ret. cbv beta iota.
        destruct (Hrest LUCPU (CallLUCPU n (dtype_ A) (device_ A)) Int64
                    (mkState mem1 (st_ipiv st)
                       (mkTensor [n; n] (default_strides [n; n]) l1
                                 (dtype_ A) (device_ A)) (st_events st)))
          as (st' & Hrun & Hout & Hblob & Hev & Hib & Hio & Hshp); try done.
        exists st', (CallLUCPU n (dtype_ A) (device_ A)).
        split; [exact Hrun|]. split_and!; try done. right. split_and!; try done.
        right. split_and!; try done. by right.
      * left. rewrite run_LogError. cbv beta iota. do 2 eexists.
        split; [reflexivity|]. split; reflexivity.
Qed.

End DriverOutcome.

Ltac pass_checks Hchecks :=
  destruct Hchecks as (Hc1 & Hc2 & Hc3 & Hc4 & Hc5);
  unfold LU_with_ipiv;
  destruct (decide (dtype_ _ ≠ Float32 ∧ dtype_ _ ≠ Float64)) as [?|_];
    [done|];
  destruct (decide (length (shape_ _) ≠ 2%nat)) as [?|_]; [done|];
  destruct (decide (nth 0 (shape_ _) 0%nat ≠ nth 1 (shape_ _) 0%nat))
    as [?|_]; [done|];
  rewrite Hc4;
  destruct (decide (_ = 0%nat)) as [?|_]; [done|].

Section DriverWidth.

Variable LUCPU LUCUDA : list Qc → nat → Dtype → Device → list Qc * list Z.
Variable BUILD_CUDA_MODULE : bool.
Variable sizeof_OPEN3D_CPU_LINALG_INT : Z.

Implicit Types (st : State) (A t : Tensor) (mem : gmap positive Blob).

(** A row-major read of the column-major layout of [M] gives the transpose
    of [M]. *)
Lemma row_major_join_transpose n M :
  shaped n n M →
  tabulate n n (λ i j, nth (i * (n * 1) + j * 1) (mjoin (transpose M)) 0%Qc)
  = transpose M.
Proof.
  intros HM. unfold transpose. rewrite (ncols_square n M HM), (proj1 HM).
  apply tabulate_ext. intros i j Hi Hj.
  replace (i * (n * 1) + j * 1)%nat with (i * n + j)%nat by lia.
  by rewrite nth_join_tabulate.
Qed.

(** The state in which the error on the width of the pivot integer is
    raised: [output] has been assigned, [ipiv] has not. *)
Lemma driver_unsupported_width_state A st n :
  valid_input (st_memory st) A n →
  device_type (device_ A) = CPU →
  sizeof_OPEN3D_CPU_LINALG_INT ≠ 4%Z → sizeof_OPEN3D_CPU_LINALG_INT ≠ 8%Z →
  ∃ st',
    LU_with_ipiv LUCPU LUCUDA BUILD_CUDA_MODULE sizeof_OPEN3D_CPU_LINALG_INT
                 A st = (inl UnsupportedIntegerWidth, st')
    ∧ tensor_matrix (st_memory st') (st_output st')
      = transpose (tensor_matrix (st_memory st) A)
    ∧ (blob_ (st_output st') ∉ dom (st_memory st))
    ∧ st_ipiv st' = st_ipiv st
    ∧ st_events st' = st_events st.
Proof.
  intros Hvalid Hdev H4 H8.
  pose proof (valid_input_checks _ _ _ Hvalid) as Hchecks.
  pose proof (valid_input_matrix _ _ _ Hvalid) as Hshaped.
  destruct (valid_input_clone _ _ _ Hvalid) as (HTs & HTd & HTdev & Hclone).
  pass_checks Hchecks.
  do 6 run_step. rewrite Hclone, HTs, HTd, HTdev.
  destruct (decide (device_type (device_ A) = CUDA)) as [?|_]; [congruence|].
  rewrite run_bind, run_bind.
  destruct (decide (sizeof_OPEN3D_CPU_LINALG_INT = 4%Z)) as [?|_]; [done|].
  destruct (decide (sizeof_OPEN3D_CPU_LINALG_INT = 8%Z)) as [?|_]; [done|].
  rewrite run_LogError. cbv beta iota. eexists. split; [reflexivity|].
  cbn [st_memory st_ipiv st_output st_events blob_].
  split_and!; [|apply is_fresh|done|done].
  unfold tensor_matrix, float_data.
  cbn [shape_ strides_ blob_ default_strides foldr].
  rewrite lookup_insert_eq. unfold kernel_buffer.
  by apply row_major_join_transpose.
Qed.

End DriverWidth.

Section LUPaths.

Variable LUCPU LUCUDA : list Qc → nat → Dtype → Device → list Qc * list Z.
Variable BUILD_CUDA_MODULE : bool.
Variable sizeof_OPEN3D_CPU_LINALG_INT : Z.
Variable Inverse : Matrix → option Matrix.

Implicit Types (st : State) (A : Tensor) (mem : gmap positive Blob).

(** The state in which [LU] calls the driver, with the local [ipiv]: a
    tensor without elements. *)
Lemma LU_run_locals A permute_l mem events :
  ∃ st0,
    extends mem (st_memory st0) ∧ st_events st0 = events
    ∧ shape_ (st_ipiv st0) = [0%nat] ∧ strides_ (st_ipiv st0) = [1%nat]
    ∧ LU LUCPU LUCUDA BUILD_CUDA_MODULE sizeof_OPEN3D_CPU_LINALG_INT Inverse
         A permute_l mem events
      = match LU_with_ipiv LUCPU LUCUDA BUILD_CUDA_MODULE
                           sizeof_OPEN3D_CPU_LINALG_INT A st0 with
        | (inl e, st') => (inl e, st')
        | (inr _, st') =>
            (inr (OutputToPLU Inverse
                    (tensor_matrix (st_memory st') (st_output st'))
                    (tensor_ints (st_memory st') (st_ipiv st')) permute_l),
             st')
        end.
Proof.
  unfold LU. rewrite run_bind.
  match goal with |- context [LU_with_ipiv _ _ _ _ _ ?s] => exists s end.
  cbn [st_memory st_events st_ipiv]. split_and!; [|done|done|done|].
  - unfold Tensor_default. cbn [fst snd].
    eapply extends_trans; apply extends_fresh.
  - destruct (LU_with_ipiv _ _ _ _ _ _) as [[e|[]] st']; [done|].
    by do 4 run_step.
Qed.

(** [LU] on a kernel path. *)
Lemma LU_kernel_path A n kernel call ipiv_dtype permute_l mem events :
  valid_input mem A n →
  dispatched LUCPU LUCUDA BUILD_CUDA_MODULE sizeof_OPEN3D_CPU_LINALG_INT
             (device_ A) n (dtype_ A) kernel call ipiv_dtype →
  (LU LUCPU LUCUDA BUILD_CUDA_MODULE sizeof_OPEN3D_CPU_LINALG_INT Inverse
      A permute_l mem events).1
  = inr (OutputToPLU Inverse
           (column_major n
              (kernel (kernel_buffer mem A) n (dtype_ A) (device_ A)).1)
           (gather 0%Z
              (kernel (kernel_buffer mem A) n (dtype_ A) (device_ A)).2
              (offsets [n] [1%nat]))
           permute_l).
Proof.
  intros Hvalid Hdisp.
  destruct (LU_run LUCPU LUCUDA BUILD_CUDA_MODULE
              sizeof_OPEN3D_CPU_LINALG_INT Inverse A permute_l mem events)
    as (st0 & Hext & Hev & ->).
  destruct (valid_input_extends _ _ _ _ Hext Hvalid) as [Hvalid0 Hsame].
  destruct (driver_factorises LUCPU LUCUDA BUILD_CUDA_MODULE
              sizeof_OPEN3D_CPU_LINALG_INT A st0 n kernel call ipiv_dtype
              Hvalid0 Hdisp) as (st' & -> & Hmat & Hints & _).
  cbn [fst]. rewrite Hmat, Hints. unfold kernel_buffer. by rewrite Hsame.
Qed.

(** [LU] on the degrade path: the reconstructor receives the copy of the
    input and the local [ipiv], which was never assigned. *)
Lemma LU_degrades A n permute_l mem events :
  valid_input mem A n →
  device_type (device_ A) = CUDA → BUILD_CUDA_MODULE = false →
  (LU LUCPU LUCUDA BUILD_CUDA_MODULE sizeof_OPEN3D_CPU_LINALG_INT Inverse
      A permute_l mem events).1
  = inr (OutputToPLU Inverse (tensor_matrix mem A) [] permute_l).
Proof.
  intros Hvalid Hdev Hbuild.
  destruct (LU_run_locals A permute_l mem events)
    as (st0 & Hext & Hev & Hshape & Hstrides & ->).
  destruct (valid_input_extends _ _ _ _ Hext Hvalid) as [Hvalid0 Hsame].
  destruct (driver_degrades LUCPU LUCUDA BUILD_CUDA_MODULE
              sizeof_OPEN3D_CPU_LINALG_INT A st0 n Hvalid0 Hdev Hbuild)
    as (st' & -> & Hmat & _ & Hipiv & _).
  cbn [fst]. rewrite Hmat, Hsame, Hipiv. unfold tensor_ints.
  by rewrite Hshape, Hstrides.
Qed.

Lemma LU_unsupported_width A n permute_l mem events :
  valid_input mem A n →
  device_type (device_ A) = CPU →
  sizeof_OPEN3D_CPU_LINALG_INT ≠ 4%Z → sizeof_OPEN3D_CPU_LINALG_INT ≠ 8%Z →
  (LU LUCPU LUCUDA BUILD_CUDA_MODULE sizeof_OPEN3D_CPU_LINALG_INT Inverse
      A permute_l mem events).1
  = inl UnsupportedIntegerWidth.
Proof.
  intros Hvalid Hdev H4 H8.
  destruct (LU_run LUCPU LUCUDA BUILD_CUDA_MODULE
              sizeof_OPEN3D_CPU_LINALG_INT Inverse A permute_l mem events)
    as (st0 & Hext & Hev & ->).
  destruct (valid_input_extends _ _ _ _ Hext Hvalid) as [Hvalid0 Hsame].
  destruct (driver_unsupported_width LUCPU LUCUDA BUILD_CUDA_MODULE
              sizeof_OPEN3D_CPU_LINALG_INT A st0 n Hvalid0 Hdev H4 H8)
    as (st' & -> & _). done.
Qed.

(** The reconstructor has no result on an empty pivot array. *)
Lemma OutputToPLU_no_pivots output permute_l :
  output ≠ [] → OutputToPLU Inverse output [] permute_l = None.
Proof.
  intros Hout. unfold OutputToPLU.
  assert (HNone : GetColPermutation [] (length (@nil Z)) (length output) = None).
  { apply eq_None_not_Some. rewrite GetColPermutation_is_Some.
    intros [Hlen _]. destruct output; [done|]. simpl in Hlen. lia. }
  cbn [Thiul]. by rewrite HNone.
Qed.

End LUPaths.

(** X9.  Whenever the driver returns, [output] is an n×n tensor in the default
    (row-major, contiguous) layout, of the element type and on the device of
    [A], where [n ≥ 1] is the dimension of [A]. *)
Theorem X9_returned_output_is_contiguous
    (LUCPU LUCUDA : list Qc → nat → Dtype → Device → list Qc * list Z)
    (BUILD_CUDA_MODULE : bool) (sizeof_OPEN3D_CPU_LINALG_INT : Z)
    (A : Tensor) (st : State) :
  (LU_with_ipiv LUCPU LUCUDA BUILD_CUDA_MODULE sizeof_OPEN3D_CPU_LINALG_INT
                A st).1 = inr () →
  ∃ n, (1 ≤ n)%nat ∧ shape_ A = [n; n]
    ∧ shape_ (st_output
        (LU_with_ipiv LUCPU LUCUDA BUILD_CUDA_MODULE
                      sizeof_OPEN3D_CPU_LINALG_INT A st).2) = [n; n]
    ∧ strides_ (st_output
        (LU_with_ipiv LUCPU LUCUDA BUILD_CUDA_MODULE
                      sizeof_OPEN3D_CPU_LINALG_INT A st).2)
      = default_strides [n; n]
    ∧ dtype_ (st_output
        (LU_with_ipiv LUCPU LUCUDA BUILD_CUDA_MODULE
                      sizeof_OPEN3D_CPU_LINALG_INT A st).2) = dtype_ A
    ∧ device_ (st_output
        (LU_with_ipiv LUCPU LUCUDA BUILD_CUDA_MODULE
                      sizeof_OPEN3D_CPU_LINALG_INT A st).2) = device_ A.
Proof.
  intros Hrun.
  destruct (driver_outcome LUCPU LUCUDA BUILD_CUDA_MODULE
              sizeof_OPEN3D_CPU_LINALG_INT A st)
    as [(e & st' & Heq & _)|(st' & new & Heq & Hshape & Hn & Hout & _)];
    rewrite Heq in Hrun |- *; [done|].
  exists (nth 0 (shape_ A) 0%nat). cbn [snd]. rewrite Hout.
  split_and!; try done. lia.
Qed.

Lemma X9_witness :
  (LU_with_ipiv getrf_reference getrf_reference false 4
                (tensor_on host) (caller_state dense_matrix)).1 = inr ()
  ∧ ∃ n, (1 ≤ n)%nat ∧ shape_ (tensor_on host) = [n; n]
    ∧ shape_ (st_output
        (LU_with_ipiv getrf_reference getrf_reference false 4
                      (tensor_on host) (caller_state dense_matrix)).2) = [n; n]
    ∧ strides_ (st_output
        (LU_with_ipiv getrf_reference getrf_reference false 4
                      (tensor_on host) (caller_state dense_matrix)).2)
      = default_strides [n; n]
    ∧ dtype_ (st_output
        (LU_with_ipiv getrf_reference getrf_reference false 4
                      (tensor_on host) (caller_state dense_matrix)).2)
      = dtype_ (tensor_on host)
    ∧ device_ (st_output
        (LU_with_ipiv getrf_reference getrf_reference false 4
                      (tensor_on host) (caller_state dense_matrix)).2)
      = device_ (tensor_on host).
Proof.
  assert (Hrun : (LU_with_ipiv getrf_reference getrf_reference false 4
                    (tensor_on host) (caller_state dense_matrix)).1 = inr ()).
  { by_evaluation. }
  split; [exact Hrun|].
  exact (X9_returned_output_is_contiguous getrf_reference getrf_reference
           false 4 (tensor_on host) (caller_state dense_matrix) Hrun).
Defined.

(** X10.  Whenever the driver returns, [output] is on a blob that the store
    of the caller did not have, so it shares no memory with [A] or any
    other tensor of the caller; [ipiv] is either the tensor it was before
    the call (the degrade path) or on a second new blob, different from the
    one of [output]. *)
Theorem X10_results_are_on_new_blobs
    (LUCPU LUCUDA : list Qc → nat → Dtype → Device → list Qc * list Z)
    (BUILD_CUDA_MODULE : bool) (sizeof_OPEN3D_CPU_LINALG_INT : Z)
    (A : Tensor) (st st' : State) :
  LU_with_ipiv LUCPU LUCUDA BUILD_CUDA_MODULE sizeof_OPEN3D_CPU_LINALG_INT
               A st = (inr (), st') →
  (blob_ (st_output st') ∉ dom (st_memory st))
  ∧ (st_ipiv st' = st_ipiv st
     ∧ device_type (device_ A) = CUDA ∧ BUILD_CUDA_MODULE = false
     ∨ (blob_ (st_ipiv st') ∉ dom (st_memory st))
       ∧ blob_ (st_ipiv st') ≠ blob_ (st_output st')
       ∧ shape_ (st_ipiv st') = [nth 0 (shape_ A) 0%nat]).
Proof.
  intros Hrun.
  destruct (driver_outcome LUCPU LUCUDA BUILD_CUDA_MODULE
              sizeof_OPEN3D_CPU_LINALG_INT A st)
    as [(e & st1 & Heq & _)
       |(st1 & new & Heq & _ & _ & _ & Hblob & _ & Hcases)];
    rewrite Heq in Hrun; [done|].
  injection Hrun as <-. split; [done|].
  destruct Hcases as [(_ & Hdev & Hbuild & Hipiv)|(_ & Hnew & Hne & Hshape)].
  - by left.
  - by right.
Qed.

Lemma X10_witness :
  ∃ st',
    LU_with_ipiv getrf_reference getrf_reference false 4
                 (tensor_on host) (caller_state dense_matrix) = (inr (), st')
    ∧ (blob_ (st_output st') ∉ dom (st_memory (caller_state dense_matrix)))
    ∧ blob_ (st_ipiv st') ≠ blob_ (st_output st').
Proof.
  assert (Hfst : (LU_with_ipiv getrf_reference getrf_reference false 4
                    (tensor_on host) (caller_state dense_matrix)).1 = inr ()).
  { by_evaluation. }
  destruct (LU_with_ipiv getrf_reference getrf_reference false 4
              (tensor_on host) (caller_state dense_matrix))
    as [[e|[]] st'] eqn:Hrun.
  - discriminate Hfst.
  - exists st'. split; [reflexivity|].
    destruct (X10_results_are_on_new_blobs getrf_reference getrf_reference
                false 4 (tensor_on host) (caller_state dense_matrix) st' Hrun)
      as [Hout [(_ & Hdev & _)|(_ & Hne & _)]].
    + discriminate Hdev.
    + split; [exact Hout|exact Hne].
Defined.

(** X11.  A call of the driver that raises appends no event.  A call that
    returns appends exactly one: the diagnostic "Unimplemented device." for
    an accelerator tensor in a build without accelerator support, the call
    of the accelerator kernel for an accelerator tensor otherwise, the call
    of the host kernel for a host tensor.  So no call invokes two kernels,
    and no kernel runs for a tensor on the other kind of device. *)
Theorem X11_one_event_per_returning_call
    (LUCPU LUCUDA : list Qc → nat → Dtype → Device → list Qc * list Z)
    (BUILD_CUDA_MODULE : bool) (sizeof_OPEN3D_CPU_LINALG_INT : Z)
    (A : Tensor) (st : State) :
  ∃ outcome st',
    LU_with_ipiv LUCPU LUCUDA BUILD_CUDA_MODULE sizeof_OPEN3D_CPU_LINALG_INT
                 A st = (outcome, st')
    ∧ match outcome with
      | inl _ => st_events st' = st_events st
      | inr _ =>
          ∃ new, st_events st' = st_events st ++ [new]
            ∧ (new = Info "Unimplemented device."
               ∧ device_type (device_ A) = CUDA ∧ BUILD_CUDA_MODULE = false
               ∨ new = CallLUCUDA (nth 0 (shape_ A) 0%nat) (dtype_ A) (device_ A)
                 ∧ device_type (device_ A) = CUDA ∧ BUILD_CUDA_MODULE = true
               ∨ new = CallLUCPU (nth 0 (shape_ A) 0%nat) (dtype_ A) (device_ A)
                 ∧ device_type (device_ A) = CPU
                 ∧ (sizeof_OPEN3D_CPU_LINALG_INT = 4%Z
                    ∨ sizeof_OPEN3D_CPU_LINALG_INT = 8%Z))
      end.
Proof.
  destruct (driver_outcome LUCPU LUCUDA BUILD_CUDA_MODULE
              sizeof_OPEN3D_CPU_LINALG_INT A st)
    as [(e & st' & Heq & _ & Hev)
       |(st' & new & Heq & _ & _ & _ & _ & Hev & Hcases)].
  - by exists (inl e), st'.
  - exists (inr ()), st'. split; [done|]. exists new. split; [done|].
    destruct Hcases as [(Hnew & Hdev & Hbuild & _)|([Hcall|Hcall] & _)].
    + by left.
    + right. by left.
    + right. by right.
Qed.

(** X12.  The error on the width of the host pivot integer is raised after
    [output] was assigned: the state it leaves has in [output] the
    transposed copy of [A], on a new blob, and [ipiv] and the events as they
    were.  [LU] raises the same error. *)
Theorem X12_width_error_is_raised_after_the_copy
    (LUCPU LUCUDA : list Qc → nat → Dtype → Device → list Qc * list Z)
    (BUILD_CUDA_MODULE : bool) (sizeof_OPEN3D_CPU_LINALG_INT : Z)
    (Inverse : Matrix → option Matrix)
    (A : Tensor) (st : State) (n : nat) (permute_l : bool) :
  valid_input (st_memory st) A n →
  device_type (device_ A) = CPU →
  sizeof_OPEN3D_CPU_LINALG_INT ≠ 4%Z → sizeof_OPEN3D_CPU_LINALG_INT ≠ 8%Z →
  (∃ st',
     LU_with_ipiv LUCPU LUCUDA BUILD_CUDA_MODULE sizeof_OPEN3D_CPU_LINALG_INT
                  A st = (inl UnsupportedIntegerWidth, st')
     ∧ tensor_matrix (st_memory st') (st_output st')
       = transpose (tensor_matrix (st_memory st) A)
     ∧ (blob_ (st_output st') ∉ dom (st_memory st))
     ∧ st_ipiv st' = st_ipiv st
     ∧ st_events st' = st_events st)
  ∧ (LU LUCPU LUCUDA BUILD_CUDA_MODULE sizeof_OPEN3D_CPU_LINALG_INT Inverse
        A permute_l (st_memory st) (st_events st)).1
    = inl UnsupportedIntegerWidth.
Proof.
  intros Hvalid Hdev H4 H8. split.
  - by apply (driver_unsupported_width_state _ _ _ _ A st n).
  - by apply (LU_unsupported_width _ _ _ _ _ A n).
Qed.

Lemma X12_witness :
  valid_input (st_memory (caller_state dense_matrix)) (tensor_on host) 3
  ∧ (LU getrf_reference getrf_reference false 2 Inverse_reference
        (tensor_on host) false (st_memory (caller_state dense_matrix))
        (st_events (caller_state dense_matrix))).1
    = inl UnsupportedIntegerWidth.
Proof.
  assert (Hvalid : valid_input (st_memory (caller_state dense_matrix))
                               (tensor_on host) 3).
  { by_evaluation. }
  split; [exact Hvalid|].
  refine (proj2 (X12_width_error_is_raised_after_the_copy
                   getrf_reference getrf_reference false 2 Inverse_reference
                   (tensor_on host) (caller_state dense_matrix) 3 false
                   Hvalid eq_refl _ _)); discriminate.
Defined.

(** X13.  The result of [LU] depends on the values of the input matrix, its
    element type and its device only: two valid tensors with the same
    values, whatever their strides, their blobs and the rest of their
    stores, give the same result. *)
Theorem X13_LU_is_independent_of_the_layout
    (LUCPU LUCUDA : list Qc → nat → Dtype → Device → list Qc * list Z)
    (BUILD_CUDA_MODULE : bool) (sizeof_OPEN3D_CPU_LINALG_INT : Z)
    (Inverse : Matrix → option Matrix)
    (A A' : Tensor) (mem mem' : gmap positive Blob) (n : nat)
    (permute_l : bool) (events events' : list Event) :
  valid_input mem A n →
  valid_input mem' A' n →
  tensor_matrix mem A = tensor_matrix mem' A' →
  dtype_ A = dtype_ A' →
  device_ A = device_ A' →
  (LU LUCPU LUCUDA BUILD_CUDA_MODULE sizeof_OPEN3D_CPU_LINALG_INT Inverse
      A permute_l mem events).1
  = (LU LUCPU LUCUDA BUILD_CUDA_MODULE sizeof_OPEN3D_CPU_LINALG_INT Inverse
        A' permute_l mem' events').1.
Proof.
  intros HA HA' HM Hdtype Hdevice.
  assert (Hbuf : kernel_buffer mem A = kernel_buffer mem' A')
    by (unfold kernel_buffer; by rewrite HM).
  destruct (device_type (device_ A)) eqn:Hdev.
  - assert (Hdev' : device_type (device_ A') = CPU) by by rewrite <- Hdevice.
    destruct (decide (sizeof_OPEN3D_CPU_LINALG_INT = 4%Z)) as [H4|H4];
      [|destruct (decide (sizeof_OPEN3D_CPU_LINALG_INT = 8%Z)) as [H8|H8]].
    + rewrite (LU_kernel_path _ _ _ _ _ A n LUCPU
                 (CallLUCPU n (dtype_ A) (device_ A)) Int32)
        by (done || by apply dispatched_host_32).
      rewrite (LU_kernel_path _ _ _ _ _ A' n LUCPU
                 (CallLUCPU n (dtype_ A') (device_ A')) Int32)
        by (done || by apply dispatched_host_32).
      by rewrite Hbuf, Hdtype, Hdevice.
    + rewrite (LU_kernel_path _ _ _ _ _ A n LUCPU
                 (CallLUCPU n (dtype_ A) (device_ A)) Int64)
        by (done || by apply dispatched_host_64).
      rewrite (LU_kernel_path _ _ _ _ _ A' n LUCPU
                 (CallLUCPU n (dtype_ A') (device_ A')) Int64)
        by (done || by apply dispatched_host_64).
      by rewrite Hbuf, Hdtype, Hdevice.
    + rewrite (LU_unsupported_width _ _ _ _ _ A n) by done.
      by rewrite (LU_unsupported_width _ _ _ _ _ A' n).
  - assert (Hdev' : device_type (device_ A') = CUDA) by by rewrite <- Hdevice.
    destruct BUILD_CUDA_MODULE eqn:Hbuild.
    + rewrite (LU_kernel_path _ _ _ _ _ A n LUCUDA
                 (CallLUCUDA n (dtype_ A) (device_ A)) Int32)
        by (done || by apply dispatched_accelerator).
      rewrite (LU_kernel_path _ _ _ _ _ A' n LUCUDA
                 (CallLUCUDA n (dtype_ A') (device_ A')) Int32)
        by (done || by apply dispatched_accelerator).
      by rewrite Hbuf, Hdtype, Hdevice.
    + rewrite (LU_degrades _ _ _ _ _ A n) by done.
      rewrite (LU_degrades _ _ _ _ _ A' n) by done.
      by rewrite HM.
Qed.

Lemma X13_witness :
  valid_input (store_of dense_matrix) (tensor_on host) 3
  ∧ valid_input (store_of (transpose dense_matrix))
                (mkTensor [3; 3]%nat [1; 3]%nat 1%positive Float64 host) 3
  ∧ (LU getrf_reference getrf_reference false 4 Inverse_reference
        (tensor_on host) false (store_of dense_matrix) []).1
    = (LU getrf_reference getrf_reference false 4 Inverse_reference
          (mkTensor [3; 3]%nat [1; 3]%nat 1%positive Float64 host) false
          (store_of (transpose dense_matrix)) [Info "earlier"]).1.
Proof.
  assert (HA : valid_input (store_of dense_matrix) (tensor_on host) 3)
    by by_evaluation.
  assert (HA' : valid_input (store_of (transpose dense_matrix))
                  (mkTensor [3; 3]%nat [1; 3]%nat 1%positive Float64 host) 3)
    by by_evaluation.
  split; [exact HA|]. split; [exact HA'|].
  apply (X13_LU_is_independent_of_the_layout getrf_reference getrf_reference
           false 4 Inverse_reference _ _ _ _ 3 false [] [Info "earlier"]
           HA HA').
  - by_evaluation.
  - reflexivity.
  - reflexivity.
Defined.

(** X14.  On the degrade path [LU] has no result, whatever the input: the
    driver returns without assigning [ipiv], and the decoder reads the first
    element of the local [ipiv], a tensor without elements. *)
Theorem X14_LU_has_no_result_on_the_degrade_path
    (LUCPU LUCUDA : list Qc → nat → Dtype → Device → list Qc * list Z)
    (sizeof_OPEN3D_CPU_LINALG_INT : Z) (Inverse : Matrix → option Matrix)
    (A : Tensor) (mem : gmap positive Blob) (n : nat)
    (permute_l : bool) (events : list Event) :
  valid_input mem A n →
  device_type (device_ A) = CUDA →
  (LU LUCPU LUCUDA false sizeof_OPEN3D_CPU_LINALG_INT Inverse
      A permute_l mem events).1 = inr None.
Proof.
  intros Hvalid Hdev.
  rewrite (LU_degrades _ _ _ _ _ A n) by done.
  rewrite OutputToPLU_no_pivots; [done|].
  destruct (valid_input_matrix _ _ _ Hvalid) as [Hlen _].
  destruct Hvalid as (_ & _ & Hn & _).
  intros Hnil. rewrite Hnil in Hlen. simpl in Hlen. lia.
Qed.

Lemma X14_witness :
  valid_input (store_of cyclic_matrix) (tensor_on accelerator) 3
  ∧ (LU getrf_reference getrf_reference false 8 Inverse_reference
        (tensor_on accelerator) true (store_of cyclic_matrix) []).1
    = inr None.
Proof.
  assert (Hvalid : valid_input (store_of cyclic_matrix)
                               (tensor_on accelerator) 3) by by_evaluation.
  split; [exact Hvalid|].
  exact (X14_LU_has_no_result_on_the_degrade_path getrf_reference
           getrf_reference 8 Inverse_reference (tensor_on accelerator)
           (store_of cyclic_matrix) 3 true [] Hvalid eq_refl).
Defined.
